(** * rust-template-full: a shallow embedding of the utility library
    ([src/lib.rs], [src/main.rs]) and of the user repository and API
    handlers ([src/db.rs], [src/api/mod.rs], [src/api/handlers.rs]). *)

From Stdlib Require Import String Ascii DecimalString.
From Stdlib Require Import ZArith List Bool Lia.
From Stdlib Require Import Permutation Sorted Znumtheory.
From Stdlib Require SpecFloat.
Import ListNotations.
Open Scope Z_scope.

(** ** Machine integers *)

(** Rust's [u64] arithmetic depends on the build profile: with overflow
    checks (debug builds) an overflowing [+] or [*] panics, without them
    (release builds) it wraps modulo 2^64.  A panic is [None]. *)
Inductive profile := Debug | Release.

Definition u64_modulus : Z := 2 ^ 64.

Definition u64_of_op (p : profile) (r : Z) : option Z :=
  match p with
  | Debug => if r <? u64_modulus then Some r else None
  | Release => Some (r mod u64_modulus)
  end.

Definition u64_add (p : profile) (a b : Z) : option Z := u64_of_op p (a + b).
Definition u64_mul (p : profile) (a b : Z) : option Z := u64_of_op p (a * b).

Definition obind {A B} (m : option A) (k : A -> option B) : option B :=
  match m with Some a => k a | None => None end.

Notation "x <- m ;; k" := (obind m (fun x => k))
  (at level 61, m at next level, right associativity).

(** The inclusive range [lo..=hi] of a Rust [for] loop. *)
Definition range_incl (lo hi : nat) : list nat := seq lo (S hi - lo).

(** ** [lib.rs]: the [User] entity *)

Record User := mkUser {
  id : Z;
  name : list Z;
  email : list Z;
  active : bool
}.

(** [User::new]. *)
Definition User_new (i : Z) (n e : list Z) : User := mkUser i n e true.

(** [User::deactivate(&mut self)]: the new value of [*self]. *)
Definition deactivate (u : User) : User :=
  {| id := id u; name := name u; email := email u; active := false |}.

(** [User::activate(&mut self)]. *)
Definition activate (u : User) : User :=
  {| id := id u; name := name u; email := email u; active := true |}.

(** ** [lib.rs]: [fibonacci_optimized] *)

(** One pass of the loop body [let next = prev + curr; prev = curr;
    curr = next;]. *)
Definition fib_step (p : profile) (st : Z * Z) : option (Z * Z) :=
  let '(prev, curr) := st in
  next <- u64_add p prev curr ;; Some (curr, next).

Fixpoint fib_loop (p : profile) (it : list nat) (st : Z * Z) : option (Z * Z) :=
  match it with
  | [] => Some st
  | _ :: it' => st' <- fib_step p st ;; fib_loop p it' st'
  end.

Definition fibonacci_optimized (p : profile) (n : nat) : option Z :=
  match n with
  | O => Some 0
  | 1%nat => Some 1
  | _ => st <- fib_loop p (range_incl 2 n) (0, 1) ;; Some (snd st)
  end.

(** ** [main.rs]: the naive recursive [fibonacci] *)

Fixpoint fibonacci (p : profile) (n : nat) : option Z :=
  match n with
  | O => Some 0
  | S O => Some 1
  | S (S m as k) =>
      a <- fibonacci p k ;; b <- fibonacci p m ;; u64_add p a b
  end.

(** ** [lib.rs]: [factorial] *)

(** [Iterator::product] folds [*] over the range from the accumulator 1. *)
Fixpoint product_loop (p : profile) (it : list nat) (acc : Z) : option Z :=
  match it with
  | [] => Some acc
  | i :: it' => acc' <- u64_mul p acc (Z.of_nat i) ;; product_loop p it' acc'
  end.

Definition factorial (p : profile) (n : nat) : option Z :=
  match n with
  | O | 1%nat => Some 1
  | _ => product_loop p (range_incl 2 n) 1
  end.

(** The mathematical factorial, as a reference. *)
Fixpoint fact (n : nat) : Z :=
  match n with
  | O => 1
  | S m => Z.of_nat (S m) * fact m
  end.

(** Product of a list of range items, as a reference. *)
Definition prodZ (l : list nat) : Z := fold_right (fun i acc => Z.of_nat i * acc) 1 l.

(** ** [lib.rs]: [is_prime] *)

(** IEEE 754 binary64 ([f64]): 53 bits of precision, exponent bound 1024,
    as in the Standard Library's executable specification of floats. *)
Definition f64 := SpecFloat.spec_float.
Definition prec64 : Z := 53.
Definition emax64 : Z := 1024.

(** [n as f64] for a [u64]: rounding to nearest, ties to even. *)
Definition f64_of_u64 (n : Z) : f64 :=
  SpecFloat.binary_normalize prec64 emax64 n 0 false.

(** [f64::sqrt], correctly rounded. *)
Definition f64_sqrt (x : f64) : f64 := SpecFloat.SFsqrt prec64 emax64 x.

(** [x as u64]: truncation towards zero, saturating at the bounds, NaN to 0. *)
Definition u64_of_f64 (x : f64) : Z :=
  match x with
  | SpecFloat.S754_zero _ => 0
  | SpecFloat.S754_infinity false => u64_modulus - 1
  | SpecFloat.S754_infinity true => 0
  | SpecFloat.S754_nan => 0
  | SpecFloat.S754_finite true _ _ => 0
  | SpecFloat.S754_finite false m e =>
      Z.min (if 0 <=? e then Z.shiftl (Zpos m) e else Z.shiftr (Zpos m) (- e))
            (u64_modulus - 1)
  end.

(** [u64::is_multiple_of]. *)
Definition is_multiple_of (n i : Z) : bool :=
  if i =? 0 then n =? 0 else n mod i =? 0.

(** [for i in (3..=limit).step_by(2) { if n.is_multiple_of(i) { return false; } }]:
    [k] is the number of iterations left, [i] the current candidate. *)
Fixpoint odd_trial_loop (n i : Z) (k : nat) : bool :=
  match k with
  | O => true
  | S k' => if is_multiple_of n i then false else odd_trial_loop n (i + 2) k'
  end.

(** The number of items of [(3..=limit).step_by(2)]. *)
Definition step_by2_count (limit : Z) : nat :=
  if 3 <=? limit then Z.to_nat ((limit - 3) / 2 + 1) else O.

Definition is_prime_limit (n : Z) : Z := u64_of_f64 (f64_sqrt (f64_of_u64 n)).

Definition is_prime (n : Z) : bool :=
  if n <? 2 then false
  else if n =? 2 then true
  else if is_multiple_of n 2 then false
  else odd_trial_loop n 3 (step_by2_count (is_prime_limit n)).

(** Trial division by every integer from 2 to n-1, as a reference. *)
Definition prime_trial (n : Z) : bool :=
  (2 <=? n) && forallb (fun d => negb (n mod d =? 0))
                       (map Z.of_nat (seq 2 (Z.to_nat n - 2))).

(** The final step of rounding, from a mantissa [Q] of at most 54 bits. *)
Definition f64_fin (Q e : Z) : f64 :=
  if Q =? 2 ^ 53 then SpecFloat.S754_finite false (2 ^ 52) (e + 1)
  else SpecFloat.S754_finite false (Z.to_pos Q) e.

(** Square root of [V] rounded to the nearest integer, as [SFsqrt] rounds
    a 53-bit result whose remainder is [V - Z.sqrt V ^ 2]. *)
Definition sqrt_rne (V : Z) : Z :=
  if V - Z.sqrt V ^ 2 <=? Z.sqrt V then Z.sqrt V else Z.sqrt V + 1.

(** ** [lib.rs]: [string_utils] *)

(** A Rust [&str] is valid UTF-8, so [s.chars()] is the sequence of its
    Unicode scalar values: a string is that sequence of code points. *)
Definition char := Z.
Definition rstring := list char.

(** A string literal of ASCII text, as its code points. *)
Definition str (s : String.string) : rstring :=
  map (fun a => Z.of_nat (Ascii.nat_of_ascii a)) (String.list_ascii_of_string s).
Arguments str s%_string_scope.

(** [char::is_whitespace]: the Unicode [White_Space] property. *)
Definition is_whitespace (c : char) : bool :=
  ((9 <=? c) && (c <=? 13)) || (c =? 32) || (c =? 133) || (c =? 160) ||
  (c =? 5760) || ((8192 <=? c) && (c <=? 8202)) || (c =? 8232) ||
  (c =? 8233) || (c =? 8239) || (c =? 8287) || (c =? 12288).

(** A word with no whitespace character. *)
Definition non_ws (w : rstring) : Prop := Forall (fun c => is_whitespace c = false) w.

(** [str::split(char::is_whitespace)]: all pieces, empty ones included. *)
Fixpoint split_ws (s : rstring) : list rstring :=
  match s with
  | [] => [[]]
  | c :: s' =>
      if is_whitespace c then [] :: split_ws s'
      else match split_ws s' with
           | w :: ws => (c :: w) :: ws
           | [] => [[c]]
           end
  end.

(** [str::split_whitespace]: the split with the empty pieces filtered out. *)
Definition split_whitespace (s : rstring) : list rstring :=
  filter (fun w => negb (match w with [] => true | _ => false end)) (split_ws s).

(** [<[String]>::join(sep)]. *)
Fixpoint join_with (sep : rstring) (ws : list rstring) : rstring :=
  match ws with
  | [] => []
  | [w] => w
  | w :: ws' => w ++ sep ++ join_with sep ws'
  end.

(** The Unicode case conversions of the standard library, [char::to_uppercase]
    (one character may give several, as 'ß' gives "SS") and [str::to_lowercase]
    (context dependent for the final sigma), are parameters of
    [to_title_case]. *)
Section TitleCase.
Variable char_to_uppercase : char -> rstring.
Variable str_to_lowercase : rstring -> rstring.

(** The closure mapped over the words. *)
Definition title_word (word : rstring) : rstring :=
  match word with
  | [] => []
  | first :: rest => char_to_uppercase first ++ str_to_lowercase rest
  end.

Definition to_title_case (s : rstring) : rstring :=
  join_with [32] (map title_word (split_whitespace s)).
End TitleCase.

(** [char::to_ascii_lowercase]. *)
Definition to_ascii_lowercase (c : char) : char :=
  if (65 <=? c) && (c <=? 90) then c + 32 else c.

Definition is_vowel_char (c : char) : bool :=
  (c =? 97) || (c =? 101) || (c =? 105) || (c =? 111) || (c =? 117).

Definition count_vowels (s : rstring) : nat :=
  length (filter (fun c => is_vowel_char (to_ascii_lowercase c)) s).

(** [s.chars().rev().collect()]. *)
Definition reverse (s : rstring) : rstring := rev s.

(** The standard case conversions restricted to ASCII, where they agree
    with the Unicode ones. *)
Definition ascii_upper (c : char) : rstring :=
  [if (97 <=? c) && (c <=? 122) then c - 32 else c].

Definition ascii_lower (w : rstring) : rstring := map to_ascii_lowercase w.

(** The ASCII vowels of either case. *)
Definition ascii_vowel (c : char) : bool :=
  existsb (Z.eqb c) [65; 69; 73; 79; 85; 97; 101; 105; 111; 117].

(** The reading of [count_vowels] that the specification describes, with
    Unicode case conversion followed by canonical decomposition, on the
    Basic Latin and Latin-1 Supplement blocks (U+0000..U+00FF).
    [unicode_lower_latin1] is the Unicode lowercase mapping there (A-Z and
    U+00C0..U+00DE except U+00D7 map 0x20 higher); [nfd_base_latin1] is
    the first code point of the canonical decomposition of a lowercase
    Latin-1 letter (U+00E0..U+00E5 start with 'a', U+00E8..U+00EB with 'e',
    U+00EC..U+00EF with 'i', U+00F2..U+00F6 with 'o', U+00F9..U+00FC with
    'u', U+00E7 with 'c', U+00F1 with 'n', U+00FD and U+00FF with 'y'). *)
Definition unicode_lower_latin1 (c : char) : char :=
  if ((65 <=? c) && (c <=? 90)) || ((192 <=? c) && (c <=? 222) && negb (c =? 215))
  then c + 32 else c.

Definition nfd_base_latin1 (c : char) : char :=
  if (224 <=? c) && (c <=? 229) then 97
  else if c =? 231 then 99
  else if (232 <=? c) && (c <=? 235) then 101
  else if (236 <=? c) && (c <=? 239) then 105
  else if c =? 241 then 110
  else if (242 <=? c) && (c <=? 246) then 111
  else if (249 <=? c) && (c <=? 252) then 117
  else if (c =? 253) || (c =? 255) then 121
  else c.

Definition count_vowels_normalized (s : rstring) : nat :=
  length (filter (fun c => is_vowel_char (nfd_base_latin1 (unicode_lower_latin1 c))) s).

(** ** [db.rs]: the users repository *)

(** [Result<T, E>]. *)
Inductive result (A E : Type) :=
| Ok (a : A)
| Err (e : E).
Arguments Ok {A E} a.
Arguments Err {A E} e.

Module db.

(** A row of the [users] table, [struct DbUser]; the timestamp is the
    store's clock value. *)
Record DbUser := mkDbUser {
  id : Z;
  name : rstring;
  email : rstring;
  active : bool;
  created_at : option Z
}.

(** The store behind the pool: the rows of [users] in storage order, the
    next value of the [id] serial and the clock read by the insert.  When
    [db_error] is [Some msg] the store does not answer (connection or
    query failure) and every statement fails with [msg]. *)
Record Store := mkStore {
  db_error : option string;
  rows : list DbUser;
  next_id : Z;
  clock : Z
}.

Definition with_rows (st : Store) (rs : list DbUser) : Store :=
  mkStore (db_error st) rs (next_id st) (clock st).

(** [DbUser::create]: [INSERT INTO users (name, email, active) VALUES
    ($1, $2, true) RETURNING *]. *)
Definition create (st : Store) (n e : rstring) : result DbUser string * Store :=
  match db_error st with
  | Some msg => (Err msg, st)
  | None =>
      let u := mkDbUser (next_id st) n e true (Some (clock st)) in
      (Ok u, mkStore None (rows st ++ [u]) (next_id st + 1) (clock st))
  end.

(** [DbUser::find_by_id]: [SELECT * FROM users WHERE id = $1] with
    [fetch_optional]: the first matching row, if any. *)
Definition find_by_id (st : Store) (i : Z) : result (option DbUser) string * Store :=
  match db_error st with
  | Some msg => (Err msg, st)
  | None => (Ok (find (fun u => id u =? i) (rows st)), st)
  end.

(** [DbUser::delete]: [DELETE FROM users WHERE id = $1]. *)
Definition delete (st : Store) (i : Z) : result unit string * Store :=
  match db_error st with
  | Some msg => (Err msg, st)
  | None => (Ok tt, with_rows st (filter (fun u => negb (id u =? i)) (rows st)))
  end.



(** [ORDER BY id]: an insertion sort on [id]; rows with equal ids (which
    the [id] serial does not produce) keep their storage order. *)
Fixpoint insert_by_id (u : DbUser) (l : list DbUser) : list DbUser :=
  match l with
  | [] => [u]
  | v :: l' => if id u <=? id v then u :: l else v :: insert_by_id u l'
  end.

Definition sort_by_id (l : list DbUser) : list DbUser := fold_right insert_by_id [] l.

(** [DbUser::list_all]: [SELECT * FROM users ORDER BY id]. *)
Definition list_all (st : Store) : result (list DbUser) string * Store :=
  match db_error st with
  | Some msg => (Err msg, st)
  | None => (Ok (sort_by_id (rows st)), st)
  end.


(** [DbUser::count]: [SELECT COUNT( * ) FROM users]. *)
Definition count (st : Store) : result Z string * Store :=
  match db_error st with
  | Some msg => (Err msg, st)
  | None => (Ok (Z.of_nat (length (rows st))), st)
  end.

(** The invariant the [id] serial keeps: every id is below the next value
    of the serial, and no two rows share an id. *)
Definition ids_ok (st : Store) : Prop :=
  Forall (fun u => id u < next_id st) (rows st) /\ NoDup (map id (rows st)).

End db.

(** ** [api/mod.rs] and [api/handlers.rs] *)

Module api.

Inductive ApiError :=
| NotFound (msg : string)
| BadRequest (msg : string)
| InternalError (msg : string)
| DatabaseError (msg : string).

(** [struct ApiResponse<T>], the response envelope. *)
Record ApiResponse (T : Type) := mkApiResponse {
  success : bool;
  data : option T;
  error : option string
}.
Arguments mkApiResponse {T}.
Arguments success {T}.
Arguments data {T}.
Arguments error {T}.

(** [impl IntoResponse for ApiError] and the [Ok] side of the handlers'
    [Result<Json<ApiResponse<T>>, ApiError>]: the status code and the body. *)
Definition into_response {T} (r : result T ApiError) : Z * ApiResponse T :=
  match r with
  | Ok v => (200, mkApiResponse true (Some v) None)
  | Err e =>
      let '(status, msg) :=
        match e with
        | NotFound m => (404, m)
        | BadRequest m => (400, m)
        | InternalError m => (500, m)
        | DatabaseError m => (500, m)
        end in
      (status, mkApiResponse false None (Some msg))
  end.

Definition status {T} (r : result T ApiError) : Z := fst (into_response r).

Record CreateUserRequest := mkCreateUserRequest {
  req_name : rstring;
  req_email : rstring
}.

Record UserResponse := mkUserResponse {
  resp_id : Z;
  resp_name : rstring;
  resp_email : rstring;
  resp_active : bool
}.

Definition UserResponse_from (u : db.DbUser) : UserResponse :=
  mkUserResponse (db.id u) (db.name u) (db.email u) (db.active u).

(** [#[derive(Validate)]] on [CreateUserRequest]:
    [#[validate(length(min = 1, max = 255))]] on [name], which counts
    characters, and [#[validate(email)]] on [email].  The e-mail syntax
    check of the [validator] crate is the parameter [validate_email]; the
    error lists the failing fields. *)
Definition validate (validate_email : rstring -> bool) (req : CreateUserRequest)
  : result unit string :=
  let name_ok := (1 <=? Z.of_nat (length (req_name req))) &&
                 (Z.of_nat (length (req_name req)) <=? 255) in
  let email_ok := validate_email (req_email req) in
  match name_ok, email_ok with
  | true, true => Ok tt
  | false, true => Err "name"%string
  | true, false => Err "email"%string
  | false, false => Err "name, email"%string
  end.

(** The handlers pass the store through: each returns its [Result] and the
    store after the statements it ran. *)
Definition create_user (validate_email : rstring -> bool) (st : db.Store)
  (payload : CreateUserRequest) : result UserResponse ApiError * db.Store :=
  match validate validate_email payload with
  | Err e => (Err (BadRequest e), st)
  | Ok _ =>
      match db.create st (req_name payload) (req_email payload) with
      | (Err e, st') => (Err (DatabaseError e), st')
      | (Ok u, st') => (Ok (UserResponse_from u), st')
      end
  end.

Definition string_of_Z (z : Z) : string := NilZero.string_of_int (Z.to_int z).

Definition get_user (st : db.Store) (i : Z) : result UserResponse ApiError * db.Store :=
  match db.find_by_id st i with
  | (Err e, st') => (Err (DatabaseError e), st')
  | (Ok None, st') =>
      (Err (NotFound (String.append "User with id "
                        (String.append (string_of_Z i) " not found"))), st')
  | (Ok (Some u), st') => (Ok (UserResponse_from u), st')
  end.

Definition delete_user (st : db.Store) (i : Z) : result unit ApiError * db.Store :=
  match db.delete st i with
  | (Err e, st') => (Err (DatabaseError e), st')
  | (Ok _, st') => (Ok tt, st')
  end.

(** [list_users]. *)
Definition list_users (st : db.Store) : result (list UserResponse) ApiError * db.Store :=
  match db.list_all st with
  | (Err e, st') => (Err (DatabaseError e), st')
  | (Ok users, st') => (Ok (map UserResponse_from users), st')
  end.

(** [ApiResponse::error], the body of every error response. *)
Definition ApiResponse_error {T} (message : string) : ApiResponse T :=
  mkApiResponse false None (Some message).

End api.

(** ** [db.rs] and [config/mod.rs]: [DatabaseConfig::default] *)

(** The process environment read by [std::env::var]: [None] when the
    variable is unset (or not valid Unicode). *)
Definition env := rstring -> option rstring.

(** [str::parse::<u16>] ([u16::from_str_radix] with radix 10): an optional
    leading [+] (a lone sign is an invalid digit, a [-] is not accepted for
    an unsigned type), then decimal digits accumulated with [checked_mul]
    and [checked_add]; any failure is an [Err], [None] here. *)
Definition u16_max : Z := 65535.

Definition checked_mul_u16 (a b : Z) : option Z :=
  if a * b <=? u16_max then Some (a * b) else None.

Definition checked_add_u16 (a b : Z) : option Z :=
  if a + b <=? u16_max then Some (a + b) else None.

Definition to_digit10 (c : char) : option Z :=
  if (48 <=? c) && (c <=? 57) then Some (c - 48) else None.

Fixpoint parse_digits_u16 (acc : Z) (s : rstring) : option Z :=
  match s with
  | [] => Some acc
  | c :: s' =>
      x <- to_digit10 c ;;
      acc1 <- checked_mul_u16 acc 10 ;;
      acc2 <- checked_add_u16 acc1 x ;;
      parse_digits_u16 acc2 s'
  end.

Definition parse_u16 (s : rstring) : option Z :=
  match s with
  | [] => None
  | [43] | [45] => None
  | 43 :: rest => parse_digits_u16 0 rest
  | _ => parse_digits_u16 0 s
  end.

(** The value of a string of decimal digits, as a reference. *)
Definition decimal_value (s : rstring) : Z := fold_left (fun a c => a * 10 + (c - 48)) s 0.

Definition is_digit (c : char) : bool := (48 <=? c) && (c <=? 57).

(** [port: std::env::var("PGPORT").ok().and_then(|p| p.parse().ok()).unwrap_or(5432)],
    the same in both [DatabaseConfig::default]. *)
Definition default_port (e : env) : Z :=
  match (p <- e (str "PGPORT") ;; parse_u16 p) with
  | Some port => port
  | None => 5432
  end.

Definition env_or (e : env) (var : rstring) (dflt : rstring) : rstring :=
  match e var with Some v => v | None => dflt end.

Module dbconf.
(** [db::DatabaseConfig]. *)
Record DatabaseConfig := mkDatabaseConfig {
  host : rstring; port : Z; database : rstring; username : rstring;
  password : option rstring; max_connections : Z
}.

Definition default (e : env) : DatabaseConfig :=
  mkDatabaseConfig (env_or e (str "PGHOST") (str "localhost")) (default_port e)
    (env_or e (str "PGDATABASE") (str "rust_app_db"))
    (env_or e (str "PGUSER") (str "rust_app_user")) (e (str "PGPASSWORD")) 5.
End dbconf.

Module config.
(** [config::DatabaseConfig]. *)
Record DatabaseConfig := mkDatabaseConfig {
  host : rstring; port : Z; database : rstring; username : rstring;
  password : option rstring; max_connections : Z; min_connections : Z
}.

Definition default (e : env) : DatabaseConfig :=
  mkDatabaseConfig (env_or e (str "PGHOST") (str "localhost")) (default_port e)
    (env_or e (str "PGDATABASE") (str "rust_app_db"))
    (env_or e (str "PGUSER") (str "rust_app_user")) (e (str "PGPASSWORD")) 10 2.
End config.

(** ** A reference Fibonacci sequence *)

(** The pair (F(n), F(n+1)) of the Fibonacci numbers, F(0) = 0, F(1) = 1. *)
Fixpoint fib_pair (n : nat) : Z * Z :=
  match n with
  | O => (0, 1)
  | S m => let '(a, b) := fib_pair m in (b, a + b)
  end.

Definition fib (n : nat) : Z := fst (fib_pair n).

(** ** Auxiliary definitions of the proofs *)

(** The order of [ORDER BY id], and its strict version. *)
Definition id_le (a b : db.DbUser) : Prop := db.id a <= db.id b.
Definition id_lt (a b : db.DbUser) : Prop := db.id a < db.id b.

(** One digit step of [decimal_value]. *)
Definition dstep (a c : Z) : Z := a * 10 + (c - 48).

(** [s] is the digit string [d] (non-empty, decimal digits only), possibly
    after one leading '+'. *)
Definition port_digits (s d : rstring) : Prop :=
  d <> [] /\ Forall (fun c => is_digit c = true) d /\ (s = d \/ s = 43 :: d).

(** * Proofs *)

Section Arith.

Example factorial_tests :
  factorial Debug 0 = Some 1 /\ factorial Debug 1 = Some 1 /\
  factorial Debug 5 = Some 120 /\ factorial Release 10 = Some 3628800 /\
  factorial Debug 20 = Some 2432902008176640000 /\ factorial Debug 21 = None.
Proof. vm_compute. repeat split. Qed.

Example fibonacci_tests :
  fibonacci_optimized Debug 10 = Some 55 /\ fibonacci_optimized Debug 20 = Some 6765 /\
  fibonacci Debug 10 = Some 55.
Proof. vm_compute. repeat split. Qed.

Lemma u64_add_comm p a b : u64_add p a b = u64_add p b a.
Proof. unfold u64_add. now rewrite Z.add_comm. Qed.

Lemma fibonacci_none_succ p n : fibonacci p n = None -> fibonacci p (S n) = None.
Proof.
  destruct n as [|n]; [discriminate|].
  intros H.
  change (fibonacci p (S (S n))) with
    (a <- fibonacci p (S n) ;; b <- fibonacci p n ;; u64_add p a b).
  now rewrite H.
Qed.

Lemma fibonacci_none_le p n m : fibonacci p n = None -> (n <= m)%nat -> fibonacci p m = None.
Proof.
  intros H Hle. induction Hle; auto using fibonacci_none_succ.
Qed.

Lemma fibonacci_SS p m :
  fibonacci p (S (S m)) = a <- fibonacci p m ;; b <- fibonacci p (S m) ;; u64_add p a b.
Proof.
  change (fibonacci p (S (S m))) with
    (a <- fibonacci p (S m) ;; b <- fibonacci p m ;; u64_add p a b).
  destruct (fibonacci p m) as [a|] eqn:Ha;
    destruct (fibonacci p (S m)) as [b|] eqn:Hb; cbn [obind]; try reflexivity.
  apply u64_add_comm.
Qed.

(** Loop invariant of [fibonacci_optimized]: after the iterations in [it]
    from the pair (F m, F (m+1)) the pair is (F (m+|it|), F (m+|it|+1)). *)
Lemma fib_loop_spec p it m a b :
  fibonacci p m = Some a -> fibonacci p (S m) = Some b ->
  fib_loop p it (a, b) =
    x <- fibonacci p (length it + m) ;; y <- fibonacci p (S (length it + m)) ;; Some (x, y).
Proof.
  revert m a b. induction it as [|i it IH]; intros m a b Ha Hb.
  - cbn [fib_loop length Nat.add]. rewrite Ha, Hb. reflexivity.
  - cbn [fib_loop length Nat.add]. unfold fib_step.
    pose proof (fibonacci_SS p m) as Hss. rewrite Ha, Hb in Hss. cbn [obind] in Hss.
    destruct (u64_add p a b) as [c|] eqn:Hc; cbn [obind].
    + rewrite (IH (S m) b c Hb Hss), Nat.add_succ_r. reflexivity.
    + destruct (fibonacci p (S (length it + m))); cbn [obind]; [|reflexivity].
      rewrite (fibonacci_none_le p (S (S m))); [reflexivity|exact Hss|lia].
Qed.

Lemma range_incl_length lo hi : length (range_incl lo hi) = (S hi - lo)%nat.
Proof. unfold range_incl. apply length_seq. Qed.

(** C2: the iterative and the naive recursive Fibonacci agree (in either
    build profile, including on panics), with base values 0 and 1. *)
Theorem fibonacci_optimized_eq_naive (p : profile) (n : nat) :
  fibonacci_optimized p n = fibonacci p n /\
  fibonacci_optimized p 0 = Some 0 /\ fibonacci_optimized p 1 = Some 1.
Proof.
  split; [|split; reflexivity].
  destruct n as [|[|k]]; [reflexivity|reflexivity|].
  unfold fibonacci_optimized.
  rewrite (fib_loop_spec p _ 0 0 1 eq_refl eq_refl).
  rewrite range_incl_length.
  replace (S (S (S k)) - 2 + 0)%nat with (S k) by lia.
  destruct (fibonacci p (S k)) as [x|] eqn:Hx; cbn [obind].
  - destruct (fibonacci p (S (S k))); reflexivity.
  - symmetry. now apply fibonacci_none_succ.
Qed.

Lemma prodZ_app l x : prodZ (l ++ [x]) = prodZ l * Z.of_nat x.
Proof.
  unfold prodZ. rewrite fold_right_app. cbn [fold_right].
  induction l as [|y l IH]; cbn [fold_right]; [lia|]. rewrite IH. lia.
Qed.

Lemma prodZ_seq2 k : prodZ (seq 2 k) = fact (S k).
Proof.
  induction k as [|k IH]; [reflexivity|].
  rewrite seq_S, prodZ_app, IH.
  change (fact (S (S k))) with (Z.of_nat (S (S k)) * fact (S k)).
  replace (2 + k)%nat with (S (S k)) by lia. lia.
Qed.

Lemma prodZ_pos it : Forall (fun i => (1 <= i)%nat) it -> 1 <= prodZ it.
Proof.
  induction 1 as [|i it Hi _ IH]; cbn; [lia|]. fold (prodZ it). nia.
Qed.

Lemma product_loop_release it acc :
  0 <= acc < u64_modulus ->
  product_loop Release it acc = Some ((acc * prodZ it) mod u64_modulus).
Proof.
  revert acc. induction it as [|i it IH]; intros acc Hacc; cbn [product_loop].
  - change (prodZ []) with 1.
    f_equal. rewrite Z.mul_1_r. symmetry. now apply Z.mod_small.
  - change (prodZ (i :: it)) with (Z.of_nat i * prodZ it).
    unfold u64_mul, u64_of_op. cbn [obind].
    rewrite IH by (apply Z.mod_pos_bound; reflexivity).
    f_equal. rewrite Z.mul_mod_idemp_l by discriminate. f_equal. lia.
Qed.

Lemma product_loop_debug it acc :
  1 <= acc < u64_modulus -> Forall (fun i => (1 <= i)%nat) it ->
  product_loop Debug it acc =
    if acc * prodZ it <? u64_modulus then Some (acc * prodZ it) else None.
Proof.
  intros Hacc Hit. revert acc Hacc.
  induction Hit as [|i it Hi Hit IH]; intros acc Hacc; cbn [product_loop].
  - change (prodZ []) with 1.
    rewrite Z.mul_1_r. destruct (Z.ltb_spec acc u64_modulus); [reflexivity|lia].
  - change (prodZ (i :: it)) with (Z.of_nat i * prodZ it).
    pose proof (prodZ_pos it Hit).
    unfold u64_mul, u64_of_op.
    destruct (Z.ltb_spec (acc * Z.of_nat i) u64_modulus) as [Hlt|Hge]; cbn [obind].
    + rewrite IH by nia. rewrite Z.mul_assoc. reflexivity.
    + destruct (Z.ltb_spec (acc * (Z.of_nat i * prodZ it)) u64_modulus); [nia|reflexivity].
Qed.

Lemma fact_pos n : 1 <= fact n.
Proof. induction n as [|n IH]; cbn [fact]; lia. Qed.

Lemma fact_mono m n : (m <= n)%nat -> fact m <= fact n.
Proof.
  induction 1 as [|n _ IH]; [lia|].
  cbn [fact]. pose proof (fact_pos n). lia.
Qed.

Lemma seq_ge1 lo k : (1 <= lo)%nat -> Forall (fun i => (1 <= i)%nat) (seq lo k).
Proof.
  intros H. apply Forall_forall. intros x Hx. apply in_seq in Hx. lia.
Qed.

Lemma factorial_product p n :
  factorial p n = product_loop p (seq 2 (n - 1)) 1 /\ prodZ (seq 2 (n - 1)) = fact n.
Proof.
  destruct n as [|[|k]]; [split; reflexivity|split; reflexivity|].
  split; [reflexivity|].
  now rewrite prodZ_seq2.
Qed.

Lemma fact_20_lt : fact 20 < u64_modulus.
Proof. vm_compute. reflexivity. Qed.

Lemma fact_21_ge : u64_modulus <= fact 21.
Proof. vm_compute. discriminate. Qed.

Lemma fact_fits n : (fact n <? u64_modulus) = (n <=? 20)%nat.
Proof.
  destruct (Nat.leb_spec n 20) as [Hle|Hgt].
  - apply Z.ltb_lt. pose proof (fact_mono _ _ Hle). pose proof fact_20_lt. lia.
  - apply Z.ltb_ge. pose proof (fact_mono 21 n ltac:(lia)). pose proof fact_21_ge. lia.
Qed.

(** C1 (amended): [factorial] has no error result.  It returns the exact
    product 2..=n (1 for n in {0,1}) as long as that fits in a [u64], which
    is the case exactly for n <= 20; beyond, the [u64] multiplication
    overflows: it panics with overflow checks (debug builds) and wraps
    silently modulo 2^64 without them (release builds). *)
Theorem factorial_u64_behaviour (n : nat) :
  factorial Debug n = (if fact n <? u64_modulus then Some (fact n) else None) /\
  factorial Release n = Some (fact n mod u64_modulus) /\
  (fact n <? u64_modulus) = (n <=? 20)%nat.
Proof.
  destruct (factorial_product Debug n) as [HD Hp].
  destruct (factorial_product Release n) as [HR _].
  split; [|split; [|apply fact_fits]].
  - rewrite HD, product_loop_debug, Z.mul_1_l, Hp; [reflexivity| |apply seq_ge1; lia].
    split; [lia|reflexivity].
  - rewrite HR, product_loop_release, Z.mul_1_l, Hp; [reflexivity|].
    split; [lia|reflexivity].
Qed.

(** C1 (claim as stated): there is no [ArithmeticOverflow] failure; in a
    release build [factorial 21] silently returns 21! mod 2^64, a value
    different from 21!, which exceeds the [u64] range. *)
Lemma factorial_21_wraps_silently :
  u64_modulus <= fact 21 /\
  factorial Release 21 = Some 14197454024290336768 /\
  factorial Release 21 <> Some (fact 21).
Proof.
  split; [apply fact_21_ge|]. split; [vm_compute; reflexivity|].
  vm_compute. discriminate.
Qed.

(** C10: [deactivate] and [activate] only set [active] (to [false],
    resp. [true]), leaving [id], [name] and [email] untouched, and each
    is idempotent. *)
Theorem activate_deactivate_frame (u : User) :
  deactivate u = mkUser (id u) (name u) (email u) false /\
  activate u = mkUser (id u) (name u) (email u) true /\
  id (deactivate u) = id u /\ name (deactivate u) = name u /\
  email (deactivate u) = email u /\ active (deactivate u) = false /\
  id (activate u) = id u /\ name (activate u) = name u /\
  email (activate u) = email u /\ active (activate u) = true /\
  deactivate (deactivate u) = deactivate u /\ activate (activate u) = activate u.
Proof. destruct u; repeat split. Qed.

End Arith.

(** ** Strings *)

Section Strings.

Example str_test : str "hi" = [104; 105].
Proof. reflexivity. Qed.

(** C9: [reverse] reverses the characters, so it is an involution. *)
Theorem reverse_involutive (s : rstring) :
  reverse (reverse s) = s /\ reverse (str "hello") = str "olleh".
Proof. split; [apply rev_involutive|reflexivity]. Qed.

Lemma vowel_after_ascii_lowercase c :
  is_vowel_char (to_ascii_lowercase c) = ascii_vowel c.
Proof.
  unfold is_vowel_char, to_ascii_lowercase, ascii_vowel. cbn [existsb].
  destruct (Z.leb_spec 65 c), (Z.leb_spec c 90); cbn [andb];
    apply eq_true_iff_eq; rewrite !orb_true_iff, !Z.eqb_eq; lia.
Qed.

Lemma filter_filter_sub {A} (f g : A -> bool) (l : list A) :
  (forall x, f x = true -> g x = true) ->
  filter f (filter g l) = filter f l.
Proof.
  intros H. induction l as [|x l IH]; cbn; [reflexivity|].
  destruct (g x) eqn:Hg; cbn.
  - destruct (f x); now rewrite IH.
  - destruct (f x) eqn:Hf; [now rewrite (H x Hf) in Hg|exact IH].
Qed.

(** C5 (amended): [count_vowels] counts the characters whose
    [to_ascii_lowercase] is a, e, i, o or u: exactly the ASCII letters
    a e i o u A E I O U.  The case conversion is ASCII only, so no
    character outside ASCII is ever counted. *)
Theorem count_vowels_ascii_only (s : rstring) :
  count_vowels s = length (filter ascii_vowel s) /\
  count_vowels s = count_vowels (filter (fun c => c <? 128) s) /\
  count_vowels (str "hello world") = 3%nat.
Proof.
  assert (E : forall l, count_vowels l = length (filter ascii_vowel l)).
  { intros l. unfold count_vowels. f_equal. apply filter_ext.
    apply vowel_after_ascii_lowercase. }
  split; [apply E|split; [|reflexivity]].
  rewrite !E, filter_filter_sub; [reflexivity|].
  intros c Hc. unfold ascii_vowel in Hc. cbn [existsb] in Hc.
  rewrite !orb_true_iff, !Z.eqb_eq in Hc. apply Z.ltb_lt. lia.
Qed.

(** C5 (claim as stated): the case conversion is not Unicode case
    conversion: 'É' (U+00C9) is left unchanged by [to_ascii_lowercase]
    while its Unicode lowercase is 'é' (U+00E9), whose canonical
    decomposition starts with 'e'; neither is counted by [count_vowels],
    while the Unicode-normalized count counts each of them. *)
Lemma count_vowels_e_acute :
  to_ascii_lowercase 201 = 201 /\ unicode_lower_latin1 201 = 233 /\
  count_vowels [201] = 0%nat /\ count_vowels_normalized [201] = 1%nat /\
  count_vowels [233] = 0%nat /\ count_vowels_normalized [233] = 1%nat.
Proof. repeat split. Qed.

Lemma split_ws_non_ws_app w c s' :
  non_ws w -> is_whitespace c = true -> split_ws (w ++ c :: s') = w :: split_ws s'.
Proof.
  intros Hw Hc. induction Hw as [|x w Hx Hw IH]; cbn [app split_ws].
  - now rewrite Hc.
  - rewrite Hx. cbn [app] in IH. now rewrite IH.
Qed.

Lemma split_ws_non_ws w : non_ws w -> split_ws w = [w].
Proof.
  induction 1 as [|x w Hx Hw IH]; cbn [split_ws]; [reflexivity|].
  now rewrite Hx, IH.
Qed.

Lemma split_ws_shape s :
  Forall non_ws (split_ws s) /\ concat (split_ws s) = filter (fun c => negb (is_whitespace c)) s /\
  split_ws s <> [].
Proof.
  induction s as [|c s (IHf & IHc & IHn)]; cbn [split_ws].
  - split; [repeat constructor|split; [reflexivity|discriminate]].
  - cbn [filter]. destruct (is_whitespace c) eqn:Hc; cbn [negb].
    + split; [constructor; [constructor|exact IHf]|split; [exact IHc|discriminate]].
    + destruct (split_ws s) as [|w ws]; [contradiction|].
      inversion IHf as [|? ? Hw Hws]; subst.
      split; [constructor; [constructor; assumption|assumption]|].
      split; [cbn [concat app] in *; now rewrite <- IHc|discriminate].
Qed.

Lemma concat_drop_empty (ws : list rstring) :
  concat (filter (fun w => negb (match w with [] => true | _ => false end)) ws) = concat ws.
Proof.
  induction ws as [|[|c w] ws IH]; cbn; [reflexivity|exact IH|now rewrite IH].
Qed.

(** C8: [to_title_case] splits on Unicode whitespace into the maximal
    non-empty runs of non-whitespace characters, maps each word to the
    uppercase of its first character followed by the lowercase of the rest,
    and joins the results with single spaces; with the standard case
    conversions on ASCII letters, "hello world" gives "Hello World". *)
Theorem to_title_case_spec (upper : char -> rstring) (lower : rstring -> rstring)
  (Hup : forall c, 97 <= c <= 122 -> upper c = [c - 32])
  (Hlow : forall w, Forall (fun c => 97 <= c <= 122) w -> lower w = w)
  (s : rstring) :
  to_title_case upper lower s = join_with [32] (map (title_word upper lower) (split_whitespace s)) /\
  (forall c r, title_word upper lower (c :: r) = upper c ++ lower r) /\
  (forall w, In w (split_whitespace s) -> w <> [] /\ non_ws w) /\
  concat (split_whitespace s) = filter (fun c => negb (is_whitespace c)) s /\
  split_whitespace [] = [] /\
  (forall c s', is_whitespace c = true -> split_whitespace (c :: s') = split_whitespace s') /\
  (forall w, w <> [] -> non_ws w -> split_whitespace w = [w]) /\
  (forall w c s', w <> [] -> non_ws w -> is_whitespace c = true ->
     split_whitespace (w ++ c :: s') = w :: split_whitespace s') /\
  to_title_case upper lower (str "hello world") = str "Hello World".
Proof.
  destruct (split_ws_shape s) as (Hf & Hc & _).
  split; [reflexivity|]. split; [reflexivity|].
  split.
  { intros w Hin. unfold split_whitespace in Hin. apply filter_In in Hin as [Hin Hne].
    split; [destruct w; cbn in Hne; congruence|]. rewrite Forall_forall in Hf. exact (Hf w Hin). }
  split; [unfold split_whitespace; now rewrite concat_drop_empty|].
  split; [reflexivity|].
  split; [intros c s' Hc'; unfold split_whitespace; cbn [split_ws]; now rewrite Hc'|].
  split.
  { intros w Hne Hw. unfold split_whitespace. rewrite split_ws_non_ws by exact Hw.
    destruct w; [contradiction|reflexivity]. }
  split.
  { intros w c s' Hne Hw Hc'. unfold split_whitespace.
    rewrite split_ws_non_ws_app by assumption. destruct w; [contradiction|reflexivity]. }
  unfold to_title_case.
  replace (split_whitespace (str "hello world"))
    with [[104; 101; 108; 108; 111]; [119; 111; 114; 108; 100]] by reflexivity.
  cbn [map title_word].
  rewrite (Hup 104), (Hup 119), !Hlow by (repeat constructor; lia).
  reflexivity.
Qed.

Lemma to_title_case_spec_witness :
  (forall c, 97 <= c <= 122 -> ascii_upper c = [c - 32]) /\
  (forall w, Forall (fun c => 97 <= c <= 122) w -> ascii_lower w = w) /\
  to_title_case ascii_upper ascii_lower (str "rust programming") =
    join_with [32] (map (title_word ascii_upper ascii_lower)
                        (split_whitespace (str "rust programming"))) /\
  to_title_case ascii_upper ascii_lower (str "hello world") = str "Hello World".
Proof.
  assert (H1 : forall c, 97 <= c <= 122 -> ascii_upper c = [c - 32]).
  { intros c Hc. unfold ascii_upper.
    destruct (Z.leb_spec 97 c), (Z.leb_spec c 122); cbn; [reflexivity|lia..]. }
  assert (H2 : forall w, Forall (fun c => 97 <= c <= 122) w -> ascii_lower w = w).
  { unfold ascii_lower. induction 1 as [|c w Hc _ IH]; cbn [map]; [reflexivity|].
    rewrite IH. f_equal.
    unfold to_ascii_lowercase. destruct (Z.leb_spec 65 c), (Z.leb_spec c 90); cbn; lia. }
  split; [exact H1|]. split; [exact H2|].
  destruct (to_title_case_spec ascii_upper ascii_lower H1 H2 (str "rust programming"))
    as (E & _ & _ & _ & _ & _ & _ & _ & Hw).
  split; assumption.
Defined.

End Strings.

(** ** Repository and handlers *)

Section Store.

Lemma find_all_false {A} (f : A -> bool) (l : list A) :
  (forall x, In x l -> f x = false) -> find f l = None.
Proof.
  induction l as [|x l IH]; intros H; cbn; [reflexivity|].
  rewrite (H x (or_introl eq_refl)). apply IH. intros y Hy. apply H. now right.
Qed.

Lemma find_filter {A} (f g : A -> bool) (l : list A) :
  (forall x, f x = true -> g x = true) -> find f (filter g l) = find f l.
Proof.
  intros H. induction l as [|x l IH]; cbn; [reflexivity|].
  destruct (g x) eqn:Hg; cbn.
  - destruct (f x); [reflexivity|exact IH].
  - destruct (f x) eqn:Hf; [now rewrite (H x Hf) in Hg|exact IH].
Qed.

Lemma filter_all_true {A} (g : A -> bool) (l : list A) :
  (forall x, In x l -> g x = true) -> filter g l = l.
Proof.
  induction l as [|x l IH]; intros H; cbn; [reflexivity|].
  rewrite (H x (or_introl eq_refl)), IH; [reflexivity|].
  intros y Hy. apply H. now right.
Qed.

Lemma with_rows_same st : db.with_rows st (db.rows st) = st.
Proof. now destruct st. Qed.

(** C3: a create request whose name is not 1 to 255 characters long (in
    particular an empty name) or whose e-mail fails the e-mail check is
    answered with 400, before any statement reaches the store: the store
    is returned as it was. *)
Theorem create_user_invalid_no_store_op (validate_email : rstring -> bool)
  (st : db.Store) (req : api.CreateUserRequest)
  (Hinvalid : ((length (api.req_name req) < 1)%nat \/ (255 < length (api.req_name req))%nat) \/
              validate_email (api.req_email req) = false) :
  (exists msg, api.create_user validate_email st req = (Err (api.BadRequest msg), st)) /\
  api.status (fst (api.create_user validate_email st req)) = 400 /\
  snd (api.create_user validate_email st req) = st.
Proof.
  assert (E : exists msg, api.validate validate_email req = Err msg).
  { unfold api.validate.
    destruct (Z.leb_spec 1 (Z.of_nat (length (api.req_name req)))),
             (Z.leb_spec (Z.of_nat (length (api.req_name req))) 255),
             (validate_email (api.req_email req)) eqn:He; cbn [andb];
      try (eexists; reflexivity).
    exfalso. destruct Hinvalid as [[Hi|Hi]|Hi]; [lia|lia|congruence]. }
  destruct E as [msg E].
  unfold api.create_user. rewrite E.
  split; [now exists msg|split; reflexivity].
Qed.

Lemma create_user_invalid_no_store_op_witness :
  let st := db.mkStore None [db.mkDbUser 1 (str "Ann") (str "ann@x.com") true (Some 0)] 2 5 in
  let req := api.mkCreateUserRequest [] (str "bob@x.com") in
  (((length (api.req_name req) < 1)%nat \/ (255 < length (api.req_name req))%nat) \/
    (fun _ => true) (api.req_email req) = false) /\
  api.create_user (fun _ => true) st req = (Err (api.BadRequest "name"), st) /\
  api.status (fst (api.create_user (fun _ => true) st req)) = 400.
Proof.
  intros st req.
  assert (H : ((length (api.req_name req) < 1)%nat \/ (255 < length (api.req_name req))%nat) \/
              (fun _ => true) (api.req_email req) = false) by (left; left; cbn; lia).
  split; [exact H|].
  destruct (create_user_invalid_no_store_op (fun _ => true) st req H) as (_ & Hs & _).
  split; [reflexivity|exact Hs].
Defined.

(** C6: when no row has the id, [find_by_id] answers [None] (not an
    error) and [get_user] answers 404, the store being untouched; the
    store is assumed to answer the statement. *)
Theorem find_by_id_absent_get_user_404 (st : db.Store) (i : Z)
  (Hup : db.db_error st = None)
  (Habsent : forall u, In u (db.rows st) -> db.id u <> i) :
  db.find_by_id st i = (Ok None, st) /\
  api.status (fst (api.get_user st i)) = 404 /\
  snd (api.get_user st i) = st.
Proof.
  assert (F : db.find_by_id st i = (Ok None, st)).
  { unfold db.find_by_id. rewrite Hup, find_all_false; [reflexivity|].
    intros u Hu. apply Z.eqb_neq. now apply Habsent. }
  split; [exact F|]. unfold api.get_user. rewrite F. split; reflexivity.
Qed.

Lemma find_by_id_absent_get_user_404_witness :
  let st := db.mkStore None [db.mkDbUser 1 (str "Ann") (str "ann@x.com") true (Some 0)] 2 5 in
  db.db_error st = None /\ (forall u, In u (db.rows st) -> db.id u <> 7) /\
  db.find_by_id st 7 = (Ok None, st) /\ api.status (fst (api.get_user st 7)) = 404.
Proof.
  intros st.
  assert (H1 : db.db_error st = None) by reflexivity.
  assert (H2 : forall u, In u (db.rows st) -> db.id u <> 7).
  { intros u [<-|[]]. cbn. lia. }
  destruct (find_by_id_absent_get_user_404 st 7 H1 H2) as (A & B & _).
  split; [exact H1|split; [exact H2|split; [exact A|exact B]]].
Defined.

(** C7: [delete] succeeds and removes the rows with the id, keeping the
    other rows in order and the rest of the store; lookups of other ids
    are unchanged; when no row has the id the store is unchanged; and
    [delete_user] answers 200.  The store is assumed to answer. *)
Theorem delete_removes_only_id (st : db.Store) (i : Z)
  (Hup : db.db_error st = None) :
  let st' := db.with_rows st (filter (fun u => negb (db.id u =? i)) (db.rows st)) in
  db.delete st i = (Ok tt, st') /\
  (forall u, In u (db.rows st') <-> In u (db.rows st) /\ db.id u <> i) /\
  db.db_error st' = db.db_error st /\ db.next_id st' = db.next_id st /\
  db.clock st' = db.clock st /\
  (forall j, j <> i -> db.find_by_id st' j = (Ok (find (fun u => db.id u =? j) (db.rows st)), st')) /\
  ((forall u, In u (db.rows st) -> db.id u <> i) -> st' = st) /\
  api.delete_user st i = (Ok tt, st') /\ api.status (fst (api.delete_user st i)) = 200.
Proof.
  intros st'.
  assert (D : db.delete st i = (Ok tt, st')) by (unfold db.delete; now rewrite Hup).
  split; [exact D|].
  split.
  { intros u. cbn [db.rows db.with_rows st']. rewrite filter_In, negb_true_iff, Z.eqb_neq.
    reflexivity. }
  split; [reflexivity|]. split; [reflexivity|]. split; [reflexivity|].
  split.
  { intros j Hj. unfold db.find_by_id. cbn [db.db_error db.rows db.with_rows st'].
    rewrite Hup, find_filter; [reflexivity|].
    intros u Hu. apply Z.eqb_eq in Hu. apply negb_true_iff, Z.eqb_neq. congruence. }
  split.
  { intros Habs. unfold st'. rewrite filter_all_true; [apply with_rows_same|].
    intros u Hu. apply negb_true_iff, Z.eqb_neq. now apply Habs. }
  unfold api.delete_user. rewrite D. split; reflexivity.
Qed.

Lemma delete_removes_only_id_witness :
  let st := db.mkStore None [db.mkDbUser 1 (str "Ann") (str "ann@x.com") true (Some 0);
                             db.mkDbUser 2 (str "Bob") (str "bob@x.com") false None] 3 5 in
  db.db_error st = None /\
  db.delete st 1 = (Ok tt, db.mkStore None [db.mkDbUser 2 (str "Bob") (str "bob@x.com") false None] 3 5) /\
  api.status (fst (api.delete_user st 9)) = 200.
Proof.
  intros st.
  assert (H : db.db_error st = None) by reflexivity.
  split; [exact H|].
  destruct (delete_removes_only_id st 1 H) as (D & _).
  destruct (delete_removes_only_id st 9 H) as (_ & _ & _ & _ & _ & _ & _ & _ & S).
  split; [exact D|exact S].
Defined.

End Store.

(** ** [is_prime] *)

Section Primes.

Lemma digits2_pos_log2 p : Zpos (SpecFloat.digits2_pos p) = Z.log2 (Zpos p) + 1.
Proof.
  induction p as [p IH|p IH|]; cbn [SpecFloat.digits2_pos]; [| |reflexivity];
    rewrite Pos2Z.inj_succ, IH;
    [rewrite Pos2Z.inj_xI, Z.log2_succ_double|rewrite Pos2Z.inj_xO, Z.log2_double]; lia.
Qed.

Lemma digits2_pos_eq p D : 2 ^ (D - 1) <= Zpos p < 2 ^ D -> Zpos (SpecFloat.digits2_pos p) = D.
Proof.
  intros H. rewrite digits2_pos_log2.
  assert (1 <= D).
  { destruct (Z.le_gt_cases 1 D) as [|HD]; [assumption|].
    assert (2 ^ D <= 1).
    { destruct (Z.eq_dec D 0) as [->|]; [reflexivity|rewrite Z.pow_neg_r by lia; lia]. }
    lia. }
  rewrite (Z.log2_unique (Zpos p) (D - 1)); [lia|lia|].
  replace (Z.succ (D - 1)) with D by lia. exact H.
Qed.

Lemma shr_1_spec m r s : 0 <= m ->
  SpecFloat.shr_1 (SpecFloat.Build_shr_record m r s) =
  SpecFloat.Build_shr_record (m / 2) (Z.odd m) (r || s).
Proof.
  intros Hm. destruct m as [|[p|p|]|p]; try reflexivity; [| |lia].
  - cbn [SpecFloat.shr_1]. f_equal.
    rewrite <- Z.div2_div. reflexivity.
  - cbn [SpecFloat.shr_1]. f_equal.
    rewrite <- Z.div2_div. reflexivity.
Qed.

Lemma iter_pos_iter {A} (f : A -> A) p x : SpecFloat.iter_pos f p x = Pos.iter f x p.
Proof.
  revert x. induction p as [p IH|p IH|]; intros x; cbn [SpecFloat.iter_pos Pos.iter].
  - rewrite !IH, !Pos.iter_swap. reflexivity.
  - rewrite !IH. reflexivity.
  - reflexivity.
Qed.

Lemma mod_pow2_split m a : 0 <= m -> 0 <= a ->
  m mod 2 ^ (a + 1) = (m / 2 ^ a) mod 2 * 2 ^ a + m mod 2 ^ a.
Proof.
  intros Hm Ha.
  assert (Hp : 0 < 2 ^ a) by (apply Z.pow_pos_nonneg; lia).
  symmetry. apply Z.mod_unique with (q := m / 2 ^ (a + 1)).
  - left. pose proof (Z.mod_pos_bound (m / 2 ^ a) 2 ltac:(lia)).
    pose proof (Z.mod_pos_bound m (2 ^ a) Hp).
    rewrite Z.pow_add_r by lia. nia.
  - rewrite Z.pow_add_r, Z.pow_1_r by lia.
    rewrite <- Z.div_div by lia.
    pose proof (Z.div_mod m (2 ^ a) ltac:(lia)).
    pose proof (Z.div_mod (m / 2 ^ a) 2 ltac:(lia)). nia.
Qed.

(** After [p] steps of [shr_1] from [m] (with round and sticky bits [r] and
    [s]): the quotient by 2^p, the last bit shifted out and whether any
    other bit, or [r] or [s], was set. *)
Lemma iter_shr_1_spec m r s p : 0 <= m ->
  Pos.iter SpecFloat.shr_1 (SpecFloat.Build_shr_record m r s) p =
  SpecFloat.Build_shr_record (m / 2 ^ Zpos p) (Z.odd (m / 2 ^ (Zpos p - 1)))
    (r || s || negb (m mod 2 ^ (Zpos p - 1) =? 0)).
Proof.
  intros Hm. induction p as [|p IH] using Pos.peano_ind.
  - cbn [Pos.iter]. rewrite shr_1_spec by exact Hm.
    replace (Zpos 1 - 1) with 0 by lia. rewrite Z.pow_0_r, Z.div_1_r, Z.mod_1_r.
    cbn [Z.eqb negb]. rewrite orb_false_r. reflexivity.
  - rewrite Pos.iter_succ, IH.
    assert (Hq : 0 <= m / 2 ^ Zpos p) by (apply Z.div_pos; [lia|apply Z.pow_pos_nonneg; lia]).
    rewrite shr_1_spec by exact Hq.
    rewrite Pos2Z.inj_succ. replace (Z.succ (Zpos p) - 1) with (Zpos p) by lia.
    f_equal.
    + rewrite Z.div_div by (try apply Z.pow_pos_nonneg; lia).
      rewrite Z.pow_succ_r by lia. f_equal. ring.
    + assert (Hp : 0 < 2 ^ (Zpos p - 1)) by (apply Z.pow_pos_nonneg; lia).
      pose proof (Z.mod_pos_bound m (2 ^ (Zpos p - 1)) Hp).
      assert (E : m mod 2 ^ Zpos p =
                  (m / 2 ^ (Zpos p - 1)) mod 2 * 2 ^ (Zpos p - 1) + m mod 2 ^ (Zpos p - 1)).
      { rewrite <- mod_pow2_split by lia. do 2 f_equal. lia. }
      rewrite E, Zmod_odd.
      destruct (Z.odd (m / 2 ^ (Zpos p - 1)));
        repeat match goal with |- context [?x =? 0] => destruct (Z.eqb_spec x 0) end;
        try lia; destruct r, s; reflexivity.
Qed.

Lemma pos_iter_xO p d : Zpos (Pos.iter xO p d) = Zpos p * 2 ^ Zpos d.
Proof.
  induction d as [|d IH] using Pos.peano_ind.
  - cbn. lia.
  - rewrite Pos.iter_succ, Pos2Z.inj_xO, IH, Pos2Z.inj_succ, Z.pow_succ_r by lia. ring.
Qed.

Lemma fexp64 x : -1021 <= x -> SpecFloat.fexp prec64 emax64 x = x - 53.
Proof. intros. unfold SpecFloat.fexp, SpecFloat.emin, prec64, emax64. lia. Qed.

Lemma loc_of_record_of_loc m l :
  SpecFloat.loc_of_shr_record (SpecFloat.shr_record_of_loc m l) = l.
Proof. destruct l as [|[]]; reflexivity. Qed.

Lemma shr_fexp_53 q e l : 2 ^ 52 <= q < 2 ^ 53 -> -1074 <= e ->
  SpecFloat.shr_fexp prec64 emax64 q e l = (SpecFloat.shr_record_of_loc q l, e).
Proof.
  intros Hq He. destruct q as [|p|p]; [lia| |lia].
  unfold SpecFloat.shr_fexp, SpecFloat.Zdigits2.
  rewrite (digits2_pos_eq p 53) by (cbn [Z.sub]; lia).
  rewrite fexp64 by lia. replace (53 + e - 53 - e) with 0 by lia. reflexivity.
Qed.

Lemma shr_fexp_carry e : -1074 <= e ->
  SpecFloat.shr_fexp prec64 emax64 (2 ^ 53) e SpecFloat.loc_Exact =
  (SpecFloat.Build_shr_record (2 ^ 52) false false, e + 1).
Proof.
  intros He. unfold SpecFloat.shr_fexp.
  replace (SpecFloat.Zdigits2 (2 ^ 53)) with 54 by reflexivity.
  rewrite fexp64 by lia. replace (54 + e - 53 - e) with 1 by lia. reflexivity.
Qed.

Lemma rne_range m l : m <= SpecFloat.round_nearest_even m l <= m + 1.
Proof.
  destruct l as [|[]]; cbn [SpecFloat.round_nearest_even]; try lia.
  destruct (Z.even m); lia.
Qed.

Lemma binary_round_aux_gen m e l mrs e' :
  SpecFloat.shr_fexp prec64 emax64 m e l = (mrs, e') ->
  2 ^ 52 <= SpecFloat.round_nearest_even (SpecFloat.shr_m mrs) (SpecFloat.loc_of_shr_record mrs) <= 2 ^ 53 ->
  -1074 <= e' <= 970 ->
  SpecFloat.binary_round_aux prec64 emax64 false m e l =
  f64_fin (SpecFloat.round_nearest_even (SpecFloat.shr_m mrs) (SpecFloat.loc_of_shr_record mrs)) e'.
Proof.
  intros H HQ He. unfold SpecFloat.binary_round_aux. rewrite H.
  set (Q := SpecFloat.round_nearest_even _ _) in *.
  unfold f64_fin. destruct (Z.eqb_spec Q (2 ^ 53)) as [E|E].
  - rewrite E, shr_fexp_carry by lia. cbn [SpecFloat.shr_m].
    replace (2 ^ 52) with (Zpos (2 ^ 52)) by reflexivity.
    rewrite (proj2 (Z.leb_le (e' + 1) (emax64 - prec64))) by (unfold emax64, prec64; lia).
    reflexivity.
  - rewrite shr_fexp_53 by lia. cbn [SpecFloat.shr_record_of_loc SpecFloat.shr_m].
    destruct Q as [|p|p]; [lia| |lia].
    rewrite (proj2 (Z.leb_le e' (emax64 - prec64))) by (unfold emax64, prec64; lia).
    reflexivity.
Qed.

Lemma binary_round_aux_53 q e l : 2 ^ 52 <= q < 2 ^ 53 -> -1074 <= e <= 970 ->
  SpecFloat.binary_round_aux prec64 emax64 false q e l =
  f64_fin (SpecFloat.round_nearest_even q l) e.
Proof.
  intros Hq He.
  rewrite (binary_round_aux_gen q e l (SpecFloat.shr_record_of_loc q l) e).
  - rewrite loc_of_record_of_loc. destruct l as [|[]]; reflexivity.
  - apply shr_fexp_53; lia.
  - rewrite loc_of_record_of_loc.
    replace (SpecFloat.shr_m (SpecFloat.shr_record_of_loc q l)) with q
      by (destruct l as [|[]]; reflexivity).
    pose proof (rne_range q l). lia.
  - lia.
Qed.

Lemma shl_align_spec mx ex ex' :
  SpecFloat.shl_align mx ex ex' =
  if ex' <? ex then (Pos.iter xO mx (Z.to_pos (ex - ex')), ex') else (mx, ex).
Proof.
  unfold SpecFloat.shl_align.
  destruct (Z.ltb_spec ex' ex); destruct (ex' - ex) eqn:E; try lia; try reflexivity.
  replace (ex - ex') with (Zpos p) by lia. reflexivity.
Qed.

(** [n as f64] is exact below 2^53. *)
Lemma f64_of_u64_small n : 0 < n < 2 ^ 53 ->
  exists m e, f64_of_u64 n = SpecFloat.S754_finite false m e /\
    2 ^ 52 <= Zpos m < 2 ^ 53 /\ -52 <= e <= 0 /\ Zpos m = n * 2 ^ (- e).
Proof.
  intros Hn. destruct n as [|p|p]; [lia| |lia].
  pose proof (Z.log2_spec (Zpos p) ltac:(lia)) as Hl.
  assert (Hl53 : Z.log2 (Zpos p) < 53) by (apply Z.log2_lt_pow2; lia).
  assert (Hl0 : 0 <= Z.log2 (Zpos p)) by apply Z.log2_nonneg.
  unfold f64_of_u64, SpecFloat.binary_normalize, SpecFloat.binary_round.
  rewrite digits2_pos_log2, fexp64 by lia.
  rewrite shl_align_spec.
  destruct (Z.ltb_spec (Z.log2 (Zpos p) + 1 + 0 - 53) 0).
  - set (e := Z.log2 (Zpos p) + 1 + 0 - 53).
    set (k := Z.to_pos (0 - e)).
    assert (Hk : Zpos k = - e) by (unfold k; rewrite Z2Pos.id; lia).
    assert (HM : Zpos (Pos.iter xO p k) = Zpos p * 2 ^ (- e)) by (rewrite pos_iter_xO, Hk; reflexivity).
    assert (Hb : 2 ^ 52 <= Zpos p * 2 ^ (- e) < 2 ^ 53).
    { replace 52 with (Z.log2 (Zpos p) + - e) at 1 by (unfold e; lia).
      replace 53 with (Z.succ (Z.log2 (Zpos p)) + - e) by (unfold e; lia).
      rewrite !Z.pow_add_r by lia. nia. }
    rewrite binary_round_aux_53 by lia. cbn [SpecFloat.round_nearest_even].
    unfold f64_fin. rewrite (proj2 (Z.eqb_neq _ _)) by lia.
    exists (Pos.iter xO p k), e. rewrite Pos2Z.id. repeat split; lia.
  - assert (E52 : Z.log2 (Zpos p) = 52) by lia.
    rewrite E52 in Hl. cbn [Z.succ] in Hl.
    rewrite binary_round_aux_53 by lia. cbn [SpecFloat.round_nearest_even].
    unfold f64_fin. rewrite (proj2 (Z.eqb_neq _ _)) by lia.
    exists p, 0. cbn [Z.to_pos]. repeat split; lia.
Qed.

(** Rounding to nearest, ties to even, after shifting [s] bits out of [n]:
    the error is at most half a unit in the last place. *)
Lemma rne_error n s : 0 <= n -> 1 <= s ->
  let q := n / 2 ^ s in
  let Q := SpecFloat.round_nearest_even q (SpecFloat.loc_of_shr_record
             (SpecFloat.Build_shr_record q (Z.odd (n / 2 ^ (s - 1)))
                (negb (n mod 2 ^ (s - 1) =? 0)))) in
  q <= Q <= q + 1 /\ Q * 2 ^ s - 2 ^ (s - 1) <= n <= Q * 2 ^ s + 2 ^ (s - 1).
Proof.
  intros Hn Hs q Q.
  assert (HP : 0 < 2 ^ (s - 1)) by (apply Z.pow_pos_nonneg; lia).
  assert (H2 : 2 ^ s = 2 * 2 ^ (s - 1)) by (rewrite <- Z.pow_succ_r by lia; f_equal; lia).
  pose proof (mod_pow2_split n (s - 1) Hn ltac:(lia)) as Hsplit.
  replace (s - 1 + 1) with s in Hsplit by lia.
  pose proof (Z.div_mod n (2 ^ s) ltac:(lia)) as Hdm.
  pose proof (Z.mod_pos_bound n (2 ^ (s - 1)) HP) as Hr.
  rewrite Zmod_odd in Hsplit. fold q in Hdm.
  unfold Q. clearbody q.
  set (P := 2 ^ (s - 1)) in *. rewrite H2 in Hdm, Hsplit |- *.
  destruct (Z.odd (n / P)); destruct (Z.eqb_spec (n mod P) 0) as [E|E];
    cbn [negb SpecFloat.loc_of_shr_record SpecFloat.round_nearest_even];
    try (destruct (Z.even q)); nia.
Qed.

(** [n as f64] from 2^53 on: a 53-bit mantissa, within half an ulp of [n]. *)
Lemma f64_of_u64_large n : 2 ^ 53 <= n < 2 ^ 64 ->
  exists m e, f64_of_u64 n = SpecFloat.S754_finite false m e /\
    2 ^ 52 <= Zpos m < 2 ^ 53 /\ 1 <= e <= 12 /\
    Zpos m * 2 ^ e - 2 ^ (e - 1) <= n <= Zpos m * 2 ^ e + 2 ^ (e - 1).
Proof.
  intros Hn. destruct n as [|p|p]; [lia| |lia].
  pose proof (Z.log2_spec (Zpos p) ltac:(lia)) as Hl.
  assert (Hl64 : Z.log2 (Zpos p) < 64) by (apply Z.log2_lt_pow2; lia).
  assert (Hl53 : 53 <= Z.log2 (Zpos p)) by (apply Z.log2_le_pow2; lia).
  set (s := Z.log2 (Zpos p) - 52).
  assert (Hq : 2 ^ 52 <= Zpos p / 2 ^ s < 2 ^ 53).
  { assert (Hps : 0 < 2 ^ s) by (apply Z.pow_pos_nonneg; lia).
    assert (E1 : 2 ^ Z.log2 (Zpos p) = 2 ^ 52 * 2 ^ s)
      by (rewrite <- Z.pow_add_r by lia; f_equal; unfold s; lia).
    assert (E2 : 2 ^ Z.succ (Z.log2 (Zpos p)) = 2 ^ 53 * 2 ^ s)
      by (rewrite <- Z.pow_add_r by lia; f_equal; unfold s; lia).
    split.
    - apply Z.div_le_lower_bound; lia.
    - apply Z.div_lt_upper_bound; lia. }
  assert (Hs : SpecFloat.shr_fexp prec64 emax64 (Zpos p) 0 SpecFloat.loc_Exact =
    (SpecFloat.Build_shr_record (Zpos p / 2 ^ s) (Z.odd (Zpos p / 2 ^ (s - 1)))
       (negb (Zpos p mod 2 ^ (s - 1) =? 0)), s)).
  { unfold SpecFloat.shr_fexp, SpecFloat.Zdigits2.
    rewrite digits2_pos_log2, fexp64 by lia.
    replace (Z.log2 (Zpos p) + 1 + 0 - 53 - 0) with (Zpos (Z.to_pos s))
      by (rewrite Z2Pos.id; unfold s; lia).
    unfold SpecFloat.shr. cbn [SpecFloat.shr_record_of_loc].
    rewrite iter_pos_iter, iter_shr_1_spec, Z2Pos.id by (unfold s; lia).
    cbn [orb]. f_equal. }
  destruct (rne_error (Zpos p) s ltac:(lia) ltac:(unfold s; lia)) as [HQ1 HQ2].
  unfold f64_of_u64, SpecFloat.binary_normalize, SpecFloat.binary_round.
  rewrite digits2_pos_log2, fexp64 by lia.
  rewrite shl_align_spec.
  rewrite (proj2 (Z.ltb_ge _ _)) by lia.
  rewrite (binary_round_aux_gen _ _ _ _ _ Hs) by (cbn [SpecFloat.shr_m]; lia || (unfold s; lia)).
  cbn [SpecFloat.shr_m].
  set (Q := SpecFloat.round_nearest_even _ _) in *.
  unfold f64_fin. destruct (Z.eqb_spec Q (2 ^ 53)) as [E|E].
  - exists (2 ^ 52)%positive, (s + 1).
    replace (Zpos (2 ^ 52)) with (2 ^ 52) by reflexivity.
    replace (s + 1 - 1) with s by lia.
    assert (Hx : 2 ^ 52 * 2 ^ (s + 1) = Q * 2 ^ s)
      by (rewrite E, Z.pow_add_r, Z.pow_1_r by lia; change (2 ^ 53) with (2 ^ 52 * 2); ring).
    assert (2 ^ (s - 1) <= 2 ^ s) by (apply Z.pow_le_mono_r; lia).
    repeat split; try lia; unfold s; lia.
  - exists (Z.to_pos Q), s. rewrite Z2Pos.id by lia.
    repeat split; try lia; unfold s; lia.
Qed.

(** [(x as f64).sqrt() as u64] for a positive normal [x = m * 2^e] with
    [-52 <= e <= 12]: the square root is taken on the mantissa shifted by
    an even amount, rounded to nearest, then truncated. *)
Lemma u64_of_f64_sqrt m e : 2 ^ 52 <= Zpos m < 2 ^ 53 -> -52 <= e <= 12 ->
  u64_of_f64 (f64_sqrt (SpecFloat.S754_finite false m e)) =
  (if Zpos m * 2 ^ (52 + e mod 2) - Z.sqrt (Zpos m * 2 ^ (52 + e mod 2)) ^ 2
        <=? Z.sqrt (Zpos m * 2 ^ (52 + e mod 2))
   then Z.sqrt (Zpos m * 2 ^ (52 + e mod 2))
   else Z.sqrt (Zpos m * 2 ^ (52 + e mod 2)) + 1) / 2 ^ (26 - e / 2).
Proof.
  intros Hm He.
  pose proof (Z.div_mod e 2 ltac:(lia)) as Hdm.
  pose proof (Z.mod_pos_bound e 2 ltac:(lia)) as Hmod.
  unfold f64_sqrt, SpecFloat.SFsqrt, SpecFloat.SFsqrt_core_binary, SpecFloat.Zdigits2.
  rewrite (digits2_pos_eq m 53) by (cbn [Z.sub]; lia).
  rewrite !Z.div2_div.
  replace ((53 + e + 1) / 2) with (e / 2 + 27)
    by (replace (53 + e + 1) with (e + 27 * 2) by lia; rewrite Z.div_add by lia; reflexivity).
  rewrite fexp64 by lia.
  replace (Z.min (e / 2 + 27 - 53) (e / 2)) with (e / 2 - 26) by lia.
  cbv zeta.
  replace (e - 2 * (e / 2 - 26)) with (Zpos (Z.to_pos (52 + e mod 2)))
    by (rewrite Z2Pos.id; lia).
  rewrite Z.shiftl_mul_pow2, Z2Pos.id by lia.
  set (V := Zpos m * 2 ^ (52 + e mod 2)).
  assert (HV : 2 ^ 104 <= V < 2 ^ 106).
  { unfold V. assert (1 <= 2 ^ (e mod 2) <= 2)
      by (destruct (Z.eq_dec (e mod 2) 0) as [->|E];
          [cbn; lia|replace (e mod 2) with 1 by lia; cbn; lia]).
    rewrite Z.pow_add_r by lia.
    change (2 ^ 104) with (2 ^ 52 * 2 ^ 52 * 1).
    change (2 ^ 106) with (2 ^ 53 * 2 ^ 52 * 2). nia. }
  pose proof (Z.sqrtrem_sqrt V) as Hs1.
  pose proof (Z.sqrtrem_spec V ltac:(lia)) as Hs2.
  destruct (Z.sqrtrem V) as [q r]. cbn [fst] in Hs1. subst q.
  destruct Hs2 as [Hr1 Hr2].
  set (q := Z.sqrt V) in *.
  assert (Hq : 2 ^ 52 <= q < 2 ^ 53).
  { pose proof (Z.sqrt_spec V ltac:(lia)) as Hsq. fold q in Hsq.
    split.
    - destruct (Z.lt_ge_cases q (2 ^ 52)); [|lia].
      assert (q + 1 <= 2 ^ 52) by lia.
      assert (Z.succ q * Z.succ q <= 2 ^ 52 * 2 ^ 52) by (apply Z.mul_le_mono_nonneg; lia).
      lia.
    - destruct (Z.lt_ge_cases q (2 ^ 53)); [lia|].
      assert (2 ^ 53 * 2 ^ 53 <= q * q) by (apply Z.mul_le_mono_nonneg; lia).
      lia. }
  replace (V - q ^ 2) with r by (rewrite Z.pow_2_r; lia).
  rewrite binary_round_aux_53 by lia.
  set (Q := if r <=? q then q else q + 1).
  replace (SpecFloat.round_nearest_even q _) with Q
    by (unfold Q; destruct (Z.eqb_spec r 0), (Z.leb_spec r q); try lia; reflexivity).
  assert (HQ : 2 ^ 52 <= Q <= 2 ^ 53) by (unfold Q; destruct (r <=? q); lia).
  assert (Hc : 0 < 2 ^ (26 - e / 2)) by (apply Z.pow_pos_nonneg; lia).
  assert (HQc : Q / 2 ^ (26 - e / 2) <= Q)
    by (apply Z.div_le_upper_bound; [lia|nia]).
  unfold f64_fin, u64_of_f64, u64_modulus.
  destruct (Z.eqb_spec Q (2 ^ 53)) as [E|E].
  - rewrite (proj2 (Z.leb_gt 0 (e / 2 - 26 + 1))) by lia.
    rewrite Z.shiftr_div_pow2 by lia.
    replace (Zpos (2 ^ 52)) with (2 ^ 52) by reflexivity.
    assert (Hc1 : 2 ^ (26 - e / 2) = 2 * 2 ^ (- (e / 2 - 26 + 1)))
      by (rewrite <- Z.pow_succ_r by lia; f_equal; lia).
    assert (H52 : 2 ^ 52 / 2 ^ (- (e / 2 - 26 + 1)) = Q / 2 ^ (26 - e / 2))
      by (rewrite Hc1, E; change (2 ^ 53) with (2 * 2 ^ 52);
          rewrite Z.div_mul_cancel_l by lia; reflexivity).
    rewrite H52. apply Z.min_l. lia.
  - rewrite (proj2 (Z.leb_gt 0 (e / 2 - 26))) by lia.
    rewrite Z.shiftr_div_pow2, Z2Pos.id by lia.
    replace (- (e / 2 - 26)) with (26 - e / 2) by lia.
    apply Z.min_l. lia.
Qed.

Lemma sqrt_rne_lower V K : 1 <= K -> 0 <= V -> K * K <= V + K - 1 -> K <= sqrt_rne V.
Proof.
  intros HK HV H. unfold sqrt_rne.
  pose proof (Z.sqrt_spec V HV) as [Hs1 Hs2].
  set (q := Z.sqrt V) in *. rewrite Z.pow_2_r.
  destruct (Z.le_gt_cases K q) as [Hq|Hq]; [destruct (_ <=? _); lia|].
  assert (Hq' : K - 1 <= q).
  { destruct (Z.le_gt_cases (K - 1) q) as [|Hlt]; [assumption|].
    assert (Z.succ q * Z.succ q <= (K - 1) * (K - 1)) by (apply Z.mul_le_mono_nonneg; lia).
    nia. }
  assert (q = K - 1) by lia. subst q.
  destruct (Z.leb_spec (V - Z.sqrt V * Z.sqrt V) (Z.sqrt V)); nia.
Qed.

Lemma sqrt_rne_upper V T C : 0 <= V -> 0 < C -> 0 <= T -> V < (T * C) * (T * C) ->
  sqrt_rne V / C <= T.
Proof.
  intros HV HC HT H. unfold sqrt_rne.
  pose proof (Z.sqrt_spec V HV) as [Hs1 Hs2].
  set (q := Z.sqrt V) in *.
  assert (q < T * C).
  { destruct (Z.lt_ge_cases q (T * C)) as [|Hge]; [assumption|].
    assert (T * C * (T * C) <= q * q) by (apply Z.mul_le_mono_nonneg; nia). lia. }
  apply Z.div_le_upper_bound; [lia|].
  destruct (_ <=? _); lia.
Qed.

Lemma sqrt_lower_bound B n : 0 <= B -> B * B <= n -> B <= Z.sqrt n.
Proof.
  intros HB H. rewrite <- (Z.sqrt_square B HB). apply Z.sqrt_le_mono. exact H.
Qed.

Lemma large_margin e : 1 <= e <= 12 ->
  (2 ^ (e - 1) * 2 ^ (26 - e / 2) + 1) * (2 ^ (e - 1) * 2 ^ (26 - e / 2) + 1)
    <= 2 ^ 52 * 2 ^ e - 2 ^ (e - 1).
Proof.
  intros He.
  assert (Hc : e = 1 \/ e = 2 \/ e = 3 \/ e = 4 \/ e = 5 \/ e = 6 \/ e = 7 \/
               e = 8 \/ e = 9 \/ e = 10 \/ e = 11 \/ e = 12) by lia.
  repeat destruct Hc as [->|Hc]; subst; apply Z.leb_le; reflexivity.
Qed.

(** The loop bound of [is_prime] is at least the integer square root of
    [n] and smaller than [n]. *)
Lemma is_prime_limit_bounds n : 3 <= n < 2 ^ 64 ->
  Z.sqrt n <= is_prime_limit n < n.
Proof.
  intros Hn.
  assert (Hk1 : 1 <= Z.sqrt n) by (apply sqrt_lower_bound; lia).
  pose proof (Z.sqrt_spec n ltac:(lia)) as [Hk2 Hk3].
  set (k := Z.sqrt n) in *.
  unfold is_prime_limit.
  destruct (Z.lt_ge_cases n (2 ^ 53)) as [Hs|Hl].
  - destruct (f64_of_u64_small n ltac:(lia)) as (m & e & Hf & Hm & He & Hme).
    rewrite Hf, u64_of_f64_sqrt by lia. fold (sqrt_rne (Zpos m * 2 ^ (52 + e mod 2))).
    pose proof (Z.div_mod e 2 ltac:(lia)) as Hdm.
    pose proof (Z.mod_pos_bound e 2 ltac:(lia)) as Hmod.
    set (C := 2 ^ (26 - e / 2)).
    assert (HC : 0 < C) by (unfold C; apply Z.pow_pos_nonneg; lia).
    assert (HV : Zpos m * 2 ^ (52 + e mod 2) = n * (C * C)).
    { rewrite Hme, <- Z.mul_assoc. f_equal. unfold C.
      rewrite <- !Z.pow_add_r by lia. f_equal. lia. }
    rewrite HV. split.
    + apply Z.div_le_lower_bound; [lia|].
      rewrite Z.mul_comm. apply sqrt_rne_lower; nia.
    + assert (sqrt_rne (n * (C * C)) / C <= k + 1) by (apply sqrt_rne_upper; nia).
      assert (k + 1 < n) by (destruct (Z.le_gt_cases k 1); nia).
      lia.
  - destruct (f64_of_u64_large n ltac:(lia)) as (m & e & Hf & Hm & He & Hme).
    rewrite Hf, u64_of_f64_sqrt by lia. fold (sqrt_rne (Zpos m * 2 ^ (52 + e mod 2))).
    pose proof (Z.div_mod e 2 ltac:(lia)) as Hdm.
    pose proof (Z.mod_pos_bound e 2 ltac:(lia)) as Hmod.
    set (C := 2 ^ (26 - e / 2)).
    assert (HC : 2 ^ 20 <= C) by (unfold C; apply Z.pow_le_mono_r; lia).
    set (h := 2 ^ (e - 1)) in *.
    assert (Hh : 0 < h) by (unfold h; apply Z.pow_pos_nonneg; lia).
    assert (HV : Zpos m * 2 ^ (52 + e mod 2) = Zpos m * 2 ^ e * (C * C)).
    { rewrite <- Z.mul_assoc. f_equal. unfold C.
      rewrite <- !Z.pow_add_r by lia. f_equal. lia. }
    assert (HVb : Zpos m * 2 ^ (52 + e mod 2) < 2 ^ 106).
    { assert (2 ^ (52 + e mod 2) <= 2 ^ 53) by (apply Z.pow_le_mono_r; lia).
      change (2 ^ 106) with (2 ^ 53 * 2 ^ 53). nia. }
    rewrite HV in HVb |- *.
    set (X := Zpos m * 2 ^ e) in *.
    split.
    + apply Z.div_le_lower_bound; [lia|].
      assert (HB : h * C + 1 <= k).
      { apply sqrt_lower_bound; [nia|].
        assert (2 ^ 52 * 2 ^ e <= X) by (unfold X; apply Z.mul_le_mono_nonneg_r; lia).
        pose proof (large_margin e He). fold h C in H0. lia. }
      rewrite Z.mul_comm. apply sqrt_rne_lower; [nia|nia|].
      assert (k * k * (C * C) <= n * (C * C)) by (apply Z.mul_le_mono_nonneg_r; nia).
      assert (n * (C * C) <= (X + h) * (C * C)) by (apply Z.mul_le_mono_nonneg_r; nia).
      assert (h * (C * C) + C <= k * C) by nia.
      nia.
    + assert (sqrt_rne (X * (C * C)) / C <= 2 ^ 33).
      { apply sqrt_rne_upper; [nia|lia|lia|].
        assert (2 ^ 33 * 2 ^ 20 <= 2 ^ 33 * C) by lia.
        change (2 ^ 106) with (2 ^ 33 * 2 ^ 20 * (2 ^ 33 * 2 ^ 20)) in HVb. nia. }
      lia.
Qed.

Example is_prime_tests :
  map is_prime [2;3;5;7;11;13;17;19;23;29;31;97] = repeat true 12 /\
  map is_prime [0;1;4;6;8;9;10;12;14;15;16;25;49] = repeat false 13 /\
  is_prime_limit 1000 = 31 /\ is_prime_limit 99 = 9 /\ is_prime_limit 100 = 10 /\
  is_prime_limit (u64_modulus - 1) = 2^32 /\ is_prime_limit 18446744030759878681 = 4294967291.
Proof. vm_compute. repeat split. Qed.

Lemma is_prime_agrees_0_1000 :
  forallb (fun n => Bool.eqb (is_prime n) (prime_trial n)) (map Z.of_nat (seq 0 1001)) = true.
Proof. vm_compute. reflexivity. Qed.


Lemma odd_trial_loop_spec n i k : 1 <= i ->
  odd_trial_loop n i k = true <->
  (forall j, (j < k)%nat -> n mod (i + 2 * Z.of_nat j) <> 0).
Proof.
  revert i. induction k as [|k IH]; intros i Hi; cbn [odd_trial_loop].
  - split; [intros _ j Hj; lia|reflexivity].
  - unfold is_multiple_of. rewrite (proj2 (Z.eqb_neq i 0)) by lia.
    destruct (Z.eqb_spec (n mod i) 0) as [E|E].
    + split; [discriminate|]. intros H. exfalso.
      apply (H 0%nat); [lia|]. rewrite Z.add_0_r. exact E.
    + rewrite (IH (i + 2)) by lia. split.
      * intros H [|j] Hj; [rewrite Z.add_0_r; exact E|].
        replace (i + 2 * Z.of_nat (S j)) with (i + 2 + 2 * Z.of_nat j) by lia.
        apply H. lia.
      * intros H j Hj.
        replace (i + 2 + 2 * Z.of_nat j) with (i + 2 * Z.of_nat (S j)) by lia.
        apply H. lia.
Qed.

Lemma step_by2_items n L :
  (forall j, (j < step_by2_count L)%nat -> n mod (3 + 2 * Z.of_nat j) <> 0) <->
  (forall d, 3 <= d <= L -> Z.odd d = true -> n mod d <> 0).
Proof.
  unfold step_by2_count. split.
  - intros H d Hd Ho. apply Z.odd_spec in Ho. destruct Ho as [m ->].
    destruct (Z.leb_spec 3 L); [|lia].
    assert (m - 1 <= (L - 3) / 2) by (apply Z.div_le_lower_bound; lia).
    replace (2 * m + 1) with (3 + 2 * Z.of_nat (Z.to_nat (m - 1))) by lia.
    apply H. lia.
  - intros H j Hj. destruct (Z.leb_spec 3 L); [|lia].
    assert (Z.of_nat j <= (L - 3) / 2) by lia.
    assert (2 * ((L - 3) / 2) <= L - 3) by (apply Z.mul_div_le; lia).
    apply H; [lia|].
    apply Z.odd_spec. exists (Z.of_nat j + 1). lia.
Qed.

(** An odd [n] has an odd divisor in [3, L], for [Z.sqrt n <= L < n], exactly
    when it has one in [3, Z.sqrt n]: the cofactor of a larger one is smaller. *)
Lemma odd_divisor_sqrt n L : 3 <= n -> Z.odd n = true -> Z.sqrt n <= L < n ->
  (forall d, 3 <= d <= L -> Z.odd d = true -> n mod d <> 0) <->
  (forall d, 3 <= d <= Z.sqrt n -> Z.odd d = true -> n mod d <> 0).
Proof.
  intros Hn Hodd HL. split.
  - intros H d Hd Ho. apply H; [lia|exact Ho].
  - intros H d Hd Ho Hmod.
    pose proof (Z.sqrt_spec n ltac:(lia)) as [Hs1 Hs2].
    destruct (Z.le_gt_cases d (Z.sqrt n)) as [Hle|Hgt]; [exact (H d ltac:(lia) Ho Hmod)|].
    pose proof (Z.div_mod n d ltac:(lia)) as Hdm. rewrite Hmod, Z.add_0_r in Hdm.
    set (e := n / d) in *.
    assert (He : Z.odd e = true).
    { rewrite Hdm, Z.odd_mul in Hodd. apply andb_prop in Hodd. apply Hodd. }
    assert (He1 : 1 <= e) by nia.
    assert (He3 : 3 <= e).
    { destruct (Z.eq_dec e 1) as [E|E]; [nia|].
      destruct (Z.eq_dec e 2) as [E2|E2]; [rewrite E2 in He; discriminate|lia]. }
    assert (Hes : e <= Z.sqrt n).
    { destruct (Z.le_gt_cases e (Z.sqrt n)) as [|Hg]; [assumption|].
      assert (Z.succ (Z.sqrt n) * Z.succ (Z.sqrt n) <= d * e) by (apply Z.mul_le_mono_nonneg; lia).
      lia. }
    apply (H e); [lia|exact He|].
    rewrite Hdm. apply Z.mod_mul. lia.
Qed.

(** C4: for every [u64] [n], [is_prime n] is false for n < 2, true for 2,
    false for an even n > 2 and, for an odd n > 2, true exactly when no odd
    number from 3 up to floor(sqrt n) divides n (the [f64] square root and
    the truncating cast give a loop bound between floor(sqrt n) and n - 1);
    and it agrees with trial division on [0, 1000]. *)
Theorem is_prime_spec (n : Z) (Hn : 0 <= n < u64_modulus) :
  (n < 2 -> is_prime n = false) /\
  (n = 2 -> is_prime n = true) /\
  (2 < n -> Z.even n = true -> is_prime n = false) /\
  (2 < n -> Z.odd n = true ->
     (is_prime n = true <->
      forall d, 3 <= d <= Z.sqrt n -> Z.odd d = true -> n mod d <> 0)) /\
  (forall m, 0 <= m <= 1000 -> is_prime m = prime_trial m).
Proof.
  unfold u64_modulus in Hn.
  assert (Hm2 : is_multiple_of n 2 = Z.even n).
  { unfold is_multiple_of. cbn [Z.eqb]. rewrite Zmod_odd, <- Z.negb_odd.
    destruct (Z.odd n); reflexivity. }
  split; [|split; [|split; [|split]]]; [unfold is_prime ..|].
  - intros H. rewrite (proj2 (Z.ltb_lt n 2) H). reflexivity.
  - intros ->. reflexivity.
  - intros H He. rewrite (proj2 (Z.ltb_ge n 2)), (proj2 (Z.eqb_neq n 2)), Hm2, He by lia.
    reflexivity.
  - intros H Ho. rewrite (proj2 (Z.ltb_ge n 2)), (proj2 (Z.eqb_neq n 2)), Hm2 by lia.
    rewrite <- Z.negb_odd, Ho. cbn [negb].
    rewrite odd_trial_loop_spec, step_by2_items by lia.
    apply odd_divisor_sqrt; [lia|exact Ho|].
    apply is_prime_limit_bounds. lia.
  - intros m Hm. pose proof is_prime_agrees_0_1000 as A.
    rewrite forallb_forall in A.
    apply Bool.eqb_prop, A, in_map_iff. exists (Z.to_nat m). split; [lia|].
    apply in_seq. lia.
Qed.

Lemma is_prime_spec_witness :
  (0 <= 97 < u64_modulus) /\
  ((97 < 2 -> is_prime 97 = false) /\
   (97 = 2 -> is_prime 97 = true) /\
   (2 < 97 -> Z.even 97 = true -> is_prime 97 = false) /\
   (2 < 97 -> Z.odd 97 = true ->
      (is_prime 97 = true <->
       forall d, 3 <= d <= Z.sqrt 97 -> Z.odd d = true -> 97 mod d <> 0)) /\
   (forall m, 0 <= m <= 1000 -> is_prime m = prime_trial m)).
Proof.
  assert (H : 0 <= 97 < u64_modulus) by (unfold u64_modulus; lia).
  split; [exact H|apply (is_prime_spec 97 H)].
Defined.

End Primes.

(** ** Further properties of the code *)

Section ArithMore.

Lemma fib_SS n : fib (S (S n)) = fib (S n) + fib n.
Proof. unfold fib. cbn [fib_pair]. destruct (fib_pair n). cbn [fst snd]. ring. Qed.

Lemma fib_nonneg_step n : 0 <= fib n /\ fib n <= fib (S n).
Proof.
  induction n as [|n IH]; [cbn; lia|].
  rewrite fib_SS. lia.
Qed.

Lemma fib_mono m n : (m <= n)%nat -> fib m <= fib n.
Proof.
  induction 1 as [|n _ IH]; [lia|]. pose proof (fib_nonneg_step n). lia.
Qed.

Lemma fib_93_fits : fib 93 < u64_modulus.
Proof. vm_compute. reflexivity. Qed.

Lemma fib_94_overflows : u64_modulus <= fib 94.
Proof. vm_compute. discriminate. Qed.

Lemma fib_fits n : (fib n <? u64_modulus) = (n <=? 93)%nat.
Proof.
  destruct (Nat.leb_spec n 93) as [Hle|Hgt].
  - apply Z.ltb_lt. pose proof (fib_mono _ _ Hle). pose proof fib_93_fits. lia.
  - apply Z.ltb_ge. pose proof (fib_mono 94 n ltac:(lia)). pose proof fib_94_overflows. lia.
Qed.

Lemma fibonacci_debug_fib m :
  fibonacci Debug m = if fib m <? u64_modulus then Some (fib m) else None.
Proof.
  assert (H : forall n, fibonacci Debug n = (if fib n <? u64_modulus then Some (fib n) else None) /\
                        fibonacci Debug (S n) = (if fib (S n) <? u64_modulus then Some (fib (S n)) else None)).
  { induction n as [|n IH]; [split; reflexivity|].
    destruct IH as [IH1 IH2]. split; [exact IH2|].
    rewrite fibonacci_SS, IH1, IH2, fib_SS.
    pose proof (fib_nonneg_step n). pose proof (fib_nonneg_step (S n)).
    unfold u64_add, u64_of_op.
    destruct (Z.ltb_spec (fib n) u64_modulus), (Z.ltb_spec (fib (S n)) u64_modulus);
      cbn [obind]; rewrite ?(Z.add_comm (fib n));
      destruct (Z.ltb_spec (fib (S n) + fib n) u64_modulus); try reflexivity; lia. }
  apply H.
Qed.

Lemma fibonacci_release_fib m : fibonacci Release m = Some (fib m mod u64_modulus).
Proof.
  assert (H : forall n, fibonacci Release n = Some (fib n mod u64_modulus) /\
                        fibonacci Release (S n) = Some (fib (S n) mod u64_modulus)).
  { induction n as [|n IH]; [split; reflexivity|].
    destruct IH as [IH1 IH2]. split; [exact IH2|].
    rewrite fibonacci_SS, IH1, IH2, fib_SS. cbn [obind].
    unfold u64_add, u64_of_op. f_equal.
    rewrite <- Z.add_mod by (unfold u64_modulus; lia). f_equal. ring. }
  apply H.
Qed.

Lemma fibonacci_optimized_naive p n : fibonacci_optimized p n = fibonacci p n.
Proof.
  destruct n as [|[|k]]; [reflexivity|reflexivity|].
  unfold fibonacci_optimized.
  rewrite (fib_loop_spec p _ 0 0 1 eq_refl eq_refl).
  rewrite range_incl_length.
  replace (S (S (S k)) - 2 + 0)%nat with (S k) by lia.
  destruct (fibonacci p (S k)) as [x|] eqn:Hx; cbn [obind].
  - destruct (fibonacci p (S (S k))); reflexivity.
  - symmetry. now apply fibonacci_none_succ.
Qed.

(** X1: [fibonacci_optimized] (and the recursive [fibonacci] of [main.rs])
    return F(n) exactly for n <= 93, the largest n whose Fibonacci number
    fits in a [u64]; from n = 94 on the addition overflows: a panic with
    overflow checks, F(n) mod 2^64 without. *)
Theorem fibonacci_u64_range (n : nat) :
  fibonacci_optimized Debug n = (if (n <=? 93)%nat then Some (fib n) else None) /\
  fibonacci Debug n = (if (n <=? 93)%nat then Some (fib n) else None) /\
  fibonacci_optimized Release n = Some (fib n mod u64_modulus) /\
  fibonacci Release n = Some (fib n mod u64_modulus).
Proof.
  rewrite !fibonacci_optimized_naive, fibonacci_debug_fib, fibonacci_release_fib, fib_fits.
  repeat split.
Qed.

Lemma is_multiple_of_2 n : is_multiple_of n 2 = Z.even n.
Proof.
  unfold is_multiple_of. cbn [Z.eqb]. rewrite Zmod_odd, <- Z.negb_odd.
  destruct (Z.odd n); reflexivity.
Qed.

Lemma odd_no_divisor_prime n : 3 <= n -> Z.odd n = true ->
  (forall d, 3 <= d <= n - 1 -> Z.odd d = true -> n mod d <> 0) <-> prime n.
Proof.
  intros Hn Ho. rewrite <- prime_alt. split.
  - intros H. split; [lia|]. intros k Hk Hdiv.
    assert (Hok : Z.odd k = true).
    { destruct Hdiv as [c Hc]. rewrite Hc, Z.odd_mul in Ho.
      apply andb_prop in Ho. apply Ho. }
    assert (k <> 2) by (intros ->; discriminate).
    apply (H k); [lia|exact Hok|]. apply Z.mod_divide; [lia|exact Hdiv].
  - intros [_ H] d Hd Hod Hm. apply (H d); [lia|]. apply Z.mod_divide; [lia|exact Hm].
Qed.

(** X2: [is_prime] decides primality on the whole [u64] range. *)
Theorem is_prime_iff_prime (n : Z) (Hn : 0 <= n < u64_modulus) :
  is_prime n = true <-> prime n.
Proof.
  unfold u64_modulus in Hn. unfold is_prime.
  destruct (Z.ltb_spec n 2) as [Hlt|Hge].
  { split; [discriminate|]. intros Hp. apply prime_ge_2 in Hp. lia. }
  destruct (Z.eqb_spec n 2) as [->|Hne2].
  { split; [intros _; exact prime_2|reflexivity]. }
  rewrite is_multiple_of_2.
  destruct (Z.even n) eqn:He.
  { split; [discriminate|]. intros Hp. apply prime_alt in Hp as [_ Hp]. exfalso.
    apply (Hp 2); [lia|]. apply Z.mod_divide; [lia|].
    rewrite Zmod_odd, <- Z.negb_odd in *. destruct (Z.odd n); [discriminate|reflexivity]. }
  assert (Ho : Z.odd n = true) by (rewrite <- Z.negb_odd in He; destruct (Z.odd n); [reflexivity|discriminate]).
  pose proof (Z.sqrt_spec n ltac:(lia)) as [Hs1 Hs2].
  assert (Hsq : Z.sqrt n <= n - 1) by (destruct (Z.le_gt_cases (Z.sqrt n) 1); nia).
  rewrite odd_trial_loop_spec, step_by2_items by lia.
  rewrite (odd_divisor_sqrt n (is_prime_limit n)); [|lia|exact Ho|apply is_prime_limit_bounds; lia].
  rewrite <- (odd_divisor_sqrt n (n - 1)); [|lia|exact Ho|lia].
  apply odd_no_divisor_prime; [lia|exact Ho].
Qed.

Lemma is_prime_iff_prime_witness : (0 <= 97 < u64_modulus) /\ (is_prime 97 = true <-> prime 97).
Proof.
  assert (H : 0 <= 97 < u64_modulus) by (unfold u64_modulus; lia).
  split; [exact H|exact (is_prime_iff_prime 97 H)].
Defined.

Lemma count_vowels_app s t : count_vowels (s ++ t) = (count_vowels s + count_vowels t)%nat.
Proof. unfold count_vowels. now rewrite filter_app, length_app. Qed.

(** X3: [count_vowels] adds up over concatenation, does not change under
    [reverse] and is at most the number of characters. *)
Theorem count_vowels_compose (s t : rstring) :
  count_vowels (s ++ t) = (count_vowels s + count_vowels t)%nat /\
  count_vowels (reverse s) = count_vowels s /\
  (count_vowels s <= length s)%nat.
Proof.
  split; [apply count_vowels_app|split].
  - unfold reverse. induction s as [|c s IH]; [reflexivity|].
    cbn [rev]. change (c :: s) with ([c] ++ s). rewrite !count_vowels_app, IH. lia.
  - unfold count_vowels. induction s as [|c s IH]; cbn; [lia|].
    destruct (is_vowel_char (to_ascii_lowercase c)); cbn; lia.
Qed.

End ArithMore.

Section StringsMore.

Lemma split_whitespace_words s :
  Forall (fun w => w <> [] /\ non_ws w) (split_whitespace s) /\
  concat (split_whitespace s) = filter (fun c => negb (is_whitespace c)) s.
Proof.
  destruct (split_ws_shape s) as (Hf & Hc & _).
  split; [|unfold split_whitespace; now rewrite concat_drop_empty].
  apply Forall_forall. intros w Hin. unfold split_whitespace in Hin.
  apply filter_In in Hin as [Hin Hne].
  split; [destruct w; cbn in Hne; congruence|]. rewrite Forall_forall in Hf. exact (Hf w Hin).
Qed.

Lemma split_whitespace_join ws :
  Forall (fun w => w <> [] /\ non_ws w) ws -> split_whitespace (join_with [32] ws) = ws.
Proof.
  induction 1 as [|w ws [Hne Hw] Hws IH]; [reflexivity|].
  destruct ws as [|w' ws].
  - cbn [join_with]. unfold split_whitespace. rewrite split_ws_non_ws by exact Hw.
    destruct w; [contradiction|reflexivity].
  - change (join_with [32] (w :: w' :: ws)) with (w ++ 32 :: join_with [32] (w' :: ws)).
    unfold split_whitespace. rewrite split_ws_non_ws_app by (assumption || reflexivity).
    destruct w as [|c w]; [contradiction|]. cbn [filter negb].
    f_equal. exact IH.
Qed.

Lemma join_with_nil ws :
  Forall (fun w => w <> []) ws -> (join_with [32] ws = [] <-> ws = []).
Proof.
  intros H. split; [|intros ->; reflexivity].
  destruct H as [|w ws Hw _]; [reflexivity|].
  destruct ws as [|w' ws]; cbn [join_with]; [intros E; contradiction|].
  intros E. apply app_eq_nil in E as [E _]. contradiction.
Qed.

Lemma split_whitespace_nil s :
  split_whitespace s = [] <-> Forall (fun c => is_whitespace c = true) s.
Proof.
  destruct (split_whitespace_words s) as [Hw Hc].
  rewrite Forall_forall. split.
  - intros E c Hin. rewrite E in Hc. cbn in Hc.
    destruct (is_whitespace c) eqn:Ec; [reflexivity|].
    assert (In c (filter (fun c => negb (is_whitespace c)) s)) as Hin'
      by (apply filter_In; rewrite Ec; auto).
    rewrite <- Hc in Hin'. destruct Hin'.
  - intros Hall. destruct (split_whitespace s) as [|w ws] eqn:E; [reflexivity|].
    exfalso. inversion Hw as [|? ? [Hne _] _]; subst.
    destruct w as [|c w]; [contradiction|].
    assert (In c (filter (fun c => negb (is_whitespace c)) s)) as Hin
      by (rewrite <- Hc; cbn; auto).
    apply filter_In in Hin as [Hin Hn]. rewrite (Hall c Hin) in Hn. discriminate.
Qed.

Lemma title_word_shape (upper : char -> rstring) (lower : rstring -> rstring)
  (Hup : forall c, is_whitespace c = false -> upper c <> [] /\ non_ws (upper c))
  (Hlow : forall w, non_ws w -> non_ws (lower w)) w :
  w <> [] /\ non_ws w -> title_word upper lower w <> [] /\ non_ws (title_word upper lower w).
Proof.
  intros [Hne Hw]. destruct w as [|c r]; [contradiction|]. cbn [title_word].
  inversion Hw as [|? ? Hc Hr]; subst. destruct (Hup c Hc) as [Hu1 Hu2].
  split.
  - intros E. apply app_eq_nil in E as [E _]. contradiction.
  - apply Forall_app. split; [exact Hu2|]. apply Hlow. exact Hr.
Qed.

(** X4: When [char::to_uppercase] and [str::to_lowercase] map non-whitespace
    to non-empty non-whitespace text, as the Unicode case mappings do,
    [to_title_case] keeps the word structure: splitting its result on
    whitespace gives exactly the title-cased words of the input; and the
    result is empty exactly when the input is all whitespace. *)
Theorem to_title_case_words (upper : char -> rstring) (lower : rstring -> rstring)
  (Hup : forall c, is_whitespace c = false -> upper c <> [] /\ non_ws (upper c))
  (Hlow : forall w, non_ws w -> non_ws (lower w)) (s : rstring) :
  split_whitespace (to_title_case upper lower s) =
    map (title_word upper lower) (split_whitespace s) /\
  (to_title_case upper lower s = [] <-> Forall (fun c => is_whitespace c = true) s).
Proof.
  destruct (split_whitespace_words s) as [Hw _].
  assert (Ht : Forall (fun w => w <> [] /\ non_ws w) (map (title_word upper lower) (split_whitespace s))).
  { apply Forall_map. eapply Forall_impl; [|exact Hw]. apply title_word_shape; assumption. }
  unfold to_title_case. split; [now apply split_whitespace_join|].
  rewrite join_with_nil by (eapply Forall_impl; [|exact Ht]; intros w [H _]; exact H).
  rewrite <- split_whitespace_nil.
  destruct (split_whitespace s); cbn; split; intros H; (reflexivity || discriminate).
Qed.

Lemma printable_not_whitespace c : 33 <= c <= 126 -> is_whitespace c = false.
Proof.
  intros Hc. unfold is_whitespace.
  repeat match goal with
  | |- context [?a <=? ?b] => destruct (Z.leb_spec a b)
  | |- context [?a =? ?b] => destruct (Z.eqb_spec a b)
  end; cbn; try reflexivity; lia.
Qed.

Lemma to_title_case_words_witness :
  (forall c, is_whitespace c = false -> ascii_upper c <> [] /\ non_ws (ascii_upper c)) /\
  (forall w, non_ws w -> non_ws (ascii_lower w)) /\
  split_whitespace (to_title_case ascii_upper ascii_lower (str " hello  wORLD ")) =
    map (title_word ascii_upper ascii_lower) (split_whitespace (str " hello  wORLD ")).
Proof.
  assert (H1 : forall c, is_whitespace c = false -> ascii_upper c <> [] /\ non_ws (ascii_upper c)).
  { intros c Hc. unfold ascii_upper. split; [discriminate|]. constructor; [|constructor].
    destruct (Z.leb_spec 97 c), (Z.leb_spec c 122); cbn; try exact Hc.
    apply printable_not_whitespace. lia. }
  assert (H2 : forall w, non_ws w -> non_ws (ascii_lower w)).
  { unfold ascii_lower, non_ws. induction 1 as [|c w Hc _ IH]; cbn [map]; constructor; [|exact IH].
    unfold to_ascii_lowercase. destruct (Z.leb_spec 65 c), (Z.leb_spec c 90); cbn; try exact Hc.
    apply printable_not_whitespace. lia. }
  split; [exact H1|]. split; [exact H2|].
  exact (proj1 (to_title_case_words ascii_upper ascii_lower H1 H2 (str " hello  wORLD "))).
Defined.

End StringsMore.

Section StoreMore.










Lemma filter_length_one {A} (f : A -> Z) (l : list A) i :
  NoDup (map f l) ->
  length (filter (fun u => negb (f u =? i)) l) =
    (length l - if existsb (fun u => (f u =? i)%Z) l then 1 else 0)%nat.
Proof.
  induction l as [|x l IH]; intros Hnd; cbn; [reflexivity|].
  inversion Hnd as [|? ? Hx Hnd']; subst. specialize (IH Hnd').
  destruct (Z.eqb_spec (f x) i) as [Ex|Ex]; cbn [negb orb].
  - assert (Hno : existsb (fun u => f u =? i) l = false).
    { apply not_true_iff_false. intros Hex. apply existsb_exists in Hex as [y [Hy Ey]].
      apply Z.eqb_eq in Ey. apply Hx. rewrite Ex, <- Ey. now apply in_map. }
    rewrite IH, Hno. lia.
  - cbn [length]. rewrite IH.
    destruct (existsb _ l) eqn:Hex; [|lia].
    destruct l as [|y l]; [discriminate|]. cbn [length]. lia.
Qed.

(** X7: [DbUser::delete] on a store that answers and keeps the [id]
    invariant: the count drops by one when a row had the id and stays
    the same otherwise; the invariant still holds; and deleting the same
    id again changes nothing. *)
Theorem delete_count (st : db.Store) (i : Z)
  (Hup : db.db_error st = None) (Hids : db.ids_ok st) :
  let st' := snd (db.delete st i) in
  fst (db.count st') =
    Ok (Z.of_nat (length (db.rows st)) -
        if existsb (fun u => db.id u =? i) (db.rows st) then 1 else 0) /\
  db.ids_ok st' /\
  db.delete st' i = (Ok tt, st').
Proof.
  intros st'. destruct Hids as [Hlt Hnd].
  assert (Est' : st' = db.with_rows st (filter (fun u => negb (db.id u =? i)) (db.rows st)))
    by (unfold st', db.delete; now rewrite Hup).
  split.
  { unfold db.count. rewrite Est'. unfold db.with_rows. cbn [db.db_error db.rows].
    rewrite Hup. cbn [fst]. rewrite filter_length_one by exact Hnd. f_equal.
    destruct (existsb _ _) eqn:Hex; [|lia].
    destruct (db.rows st); [discriminate|]. cbn [length]. lia. }
  split.
  { rewrite Est'. unfold db.ids_ok. cbn [db.rows db.next_id db.with_rows]. split.
    - rewrite Forall_forall in *. intros u Hu. apply filter_In in Hu as [Hu _]. now apply Hlt.
    - clear Hlt Est'. induction (db.rows st) as [|x l IH]; cbn; [constructor|].
      inversion Hnd as [|? ? Hx Hnd']; subst.
      destruct (negb (db.id x =? i)); cbn [map]; [|now apply IH].
      constructor; [|now apply IH]. intros Hin. apply Hx.
      apply in_map_iff in Hin as [y [Ey Hy]]. apply filter_In in Hy as [Hy _].
      rewrite <- Ey. now apply in_map. }
  unfold db.delete. rewrite Est'. cbn [db.db_error db.rows db.with_rows]. rewrite Hup.
  f_equal. unfold db.with_rows. cbn [db.db_error db.rows db.next_id db.clock]. f_equal.
  apply filter_filter_sub. auto.
Qed.

Lemma delete_count_witness :
  let st := db.mkStore None [db.mkDbUser 1 (str "Ann") (str "ann@x.com") true (Some 0);
                             db.mkDbUser 2 (str "Bob") (str "bob@x.com") true (Some 3)] 3 5 in
  db.db_error st = None /\ db.ids_ok st /\
  fst (db.count (snd (db.delete st 2))) = Ok 1.
Proof.
  intros st.
  assert (H1 : db.db_error st = None) by reflexivity.
  assert (H2 : db.ids_ok st).
  { split; [repeat constructor; cbn; lia|]. cbn. repeat constructor; cbn; lia. }
  split; [exact H1|]. split; [exact H2|].
  rewrite (proj1 (delete_count st 2 H1 H2)). reflexivity.
Defined.

Lemma insert_by_id_perm u l : Permutation (db.insert_by_id u l) (u :: l).
Proof.
  induction l as [|v l IH]; cbn; [reflexivity|].
  destruct (db.id u <=? db.id v); [reflexivity|].
  rewrite IH. apply perm_swap.
Qed.

Lemma sort_by_id_perm l : Permutation (db.sort_by_id l) l.
Proof.
  unfold db.sort_by_id. induction l as [|u l IH]; cbn [fold_right]; [reflexivity|].
  rewrite insert_by_id_perm, IH. reflexivity.
Qed.

Lemma insert_by_id_sorted u l : Sorted id_le l -> Sorted id_le (db.insert_by_id u l).
Proof.
  induction 1 as [|v l Hs IH Hhd]; cbn; [repeat constructor|].
  destruct (Z.leb_spec (db.id u) (db.id v)) as [Hle|Hgt].
  - constructor; [constructor; assumption|constructor; exact Hle].
  - constructor; [exact IH|].
    destruct l as [|w l]; cbn; [constructor; unfold id_le; lia|].
    inversion Hhd; subst.
    destruct (db.id u <=? db.id w); constructor; unfold id_le in *; lia.
Qed.

Lemma sort_by_id_sorted l : Sorted id_le (db.sort_by_id l).
Proof.
  unfold db.sort_by_id. induction l as [|u l IH]; cbn [fold_right]; [constructor|].
  now apply insert_by_id_sorted.
Qed.

Lemma sorted_le_lt l : Sorted id_le l -> NoDup (map db.id l) -> Sorted id_lt l.
Proof.
  induction 1 as [|a l Hs IH Hhd]; intros Hnd; [constructor|].
  inversion Hnd as [|? ? Ha Hnd']; subst.
  constructor; [now apply IH|].
  destruct l as [|b l]; constructor. inversion Hhd; subst. unfold id_le, id_lt in *.
  assert (db.id a <> db.id b) by (intros E; apply Ha; rewrite E; now left). lia.
Qed.

(** X8: [DbUser::list_all] and the [list_users] handler on a store that
    answers: the rows come back ordered by id, each row exactly once
    (a permutation of the stored rows, as many as [count] gives), with
    strictly increasing ids when no two rows share an id; [list_users]
    answers 200 with those rows as [UserResponse]s, store unchanged. *)
Theorem list_all_sorted (st : db.Store) (Hup : db.db_error st = None) :
  exists us,
    db.list_all st = (Ok us, st) /\
    Sorted (fun a b => db.id a <= db.id b) us /\
    Permutation us (db.rows st) /\
    fst (db.count st) = Ok (Z.of_nat (length us)) /\
    (NoDup (map db.id (db.rows st)) -> Sorted (fun a b => db.id a < db.id b) us) /\
    api.list_users st = (Ok (map api.UserResponse_from us), st) /\
    api.status (fst (api.list_users st)) = 200.
Proof.
  exists (db.sort_by_id (db.rows st)).
  assert (L : db.list_all st = (Ok (db.sort_by_id (db.rows st)), st))
    by (unfold db.list_all; now rewrite Hup).
  split; [exact L|].
  split; [exact (sort_by_id_sorted _)|].
  split; [exact (sort_by_id_perm _)|].
  split; [unfold db.count; rewrite Hup; cbn; now rewrite (Permutation_length (sort_by_id_perm _))|].
  split.
  { intros Hnd. apply sorted_le_lt; [exact (sort_by_id_sorted _)|].
    eapply Permutation_NoDup; [|exact Hnd]. symmetry. apply Permutation_map, sort_by_id_perm. }
  unfold api.list_users. rewrite L. split; reflexivity.
Qed.

Lemma list_all_sorted_witness :
  let st := db.mkStore None [db.mkDbUser 3 (str "Cy") (str "cy@x.com") true None;
                             db.mkDbUser 1 (str "Ann") (str "ann@x.com") true None] 4 5 in
  db.db_error st = None /\
  exists us, db.list_all st = (Ok us, st) /\ Sorted (fun a b => db.id a <= db.id b) us.
Proof.
  intros st.
  assert (H : db.db_error st = None) by reflexivity.
  split; [exact H|].
  destruct (list_all_sorted st H) as (us & E & S & _).
  exists us. split; assumption.
Defined.







(** X11: The [delete_user] handler on a store that answers, followed by
    [get_user] on the same id: the lookup answers 404 with the message
    "User with id <id> not found", whether or not a row had the id. *)
Theorem delete_user_then_get_user (st : db.Store) (i : Z) (Hup : db.db_error st = None) :
  let st' := snd (api.delete_user st i) in
  api.get_user st' i =
    (Err (api.NotFound (String.append "User with id " (String.append (api.string_of_Z i) " not found"))), st') /\
  api.into_response (fst (api.get_user st' i)) =
    (404, api.ApiResponse_error (String.append "User with id " (String.append (api.string_of_Z i) " not found"))).
Proof.
  intros st'.
  assert (Est' : st' = db.with_rows st (filter (fun u => negb (db.id u =? i)) (db.rows st)))
    by (unfold st', api.delete_user, db.delete; now rewrite Hup).
  assert (G : api.get_user st' i =
    (Err (api.NotFound (String.append "User with id " (String.append (api.string_of_Z i) " not found"))), st')).
  { unfold api.get_user, db.find_by_id.
    replace (db.db_error st') with (@None string) by (rewrite Est'; exact (eq_sym Hup)).
    replace (find (fun u => db.id u =? i) (db.rows st')) with (@None db.DbUser); [reflexivity|].
    symmetry. apply find_all_false. intros u Hu. rewrite Est' in Hu. cbn in Hu.
    apply filter_In in Hu as [_ Hu]. now apply negb_true_iff in Hu. }
  split; [exact G|]. rewrite G. reflexivity.
Qed.

Lemma delete_user_then_get_user_witness :
  let st := db.mkStore None [db.mkDbUser 1 (str "Ann") (str "ann@x.com") true (Some 0)] 2 5 in
  db.db_error st = None /\
  api.status (fst (api.get_user (snd (api.delete_user st 1)) 1)) = 404.
Proof.
  intros st.
  assert (H : db.db_error st = None) by reflexivity.
  split; [exact H|].
  unfold api.status. rewrite (proj2 (delete_user_then_get_user st 1 H)). reflexivity.
Defined.



End StoreMore.

Section PortMore.

Lemma fold_dstep_ge s a :
  0 <= a -> Forall (fun c => is_digit c = true) s -> a <= fold_left dstep s a.
Proof.
  revert a. induction s as [|c s IH]; intros a Ha Hs; cbn [fold_left]; [lia|].
  inversion Hs as [|? ? Hc Hs']; subst. unfold is_digit in Hc.
  apply andb_prop in Hc as [H1 H2]. apply Z.leb_le in H1, H2.
  assert (a <= dstep a c) by (unfold dstep; lia).
  pose proof (IH (dstep a c) ltac:(lia) Hs'). lia.
Qed.

Lemma parse_digits_value s acc :
  0 <= acc <= 65535 -> Forall (fun c => is_digit c = true) s ->
  parse_digits_u16 acc s =
    if fold_left dstep s acc <=? 65535 then Some (fold_left dstep s acc) else None.
Proof.
  revert acc. induction s as [|c s IH]; intros acc Hacc Hs; cbn [parse_digits_u16 fold_left].
  { destruct (Z.leb_spec acc 65535); [reflexivity|lia]. }
  inversion Hs as [|? ? Hc Hs']; subst.
  pose proof Hc as Hc'. unfold is_digit in Hc'.
  apply andb_prop in Hc' as [H1 H2]. apply Z.leb_le in H1, H2.
  unfold to_digit10. unfold is_digit in Hc. rewrite Hc. cbn [obind].
  pose proof (fold_dstep_ge s (dstep acc c) ltac:(unfold dstep; lia) Hs').
  unfold checked_mul_u16, u16_max.
  destruct (Z.leb_spec (acc * 10) 65535); cbn [obind].
  2: { destruct (Z.leb_spec (fold_left dstep s (dstep acc c)) 65535); [|reflexivity].
       exfalso. unfold dstep in *. lia. }
  unfold checked_add_u16, u16_max.
  destruct (Z.leb_spec (acc * 10 + (c - 48)) 65535); cbn [obind].
  2: { destruct (Z.leb_spec (fold_left dstep s (dstep acc c)) 65535); [|reflexivity].
       exfalso. unfold dstep in *. lia. }
  apply IH; [unfold dstep; lia|exact Hs'].
Qed.

Lemma parse_digits_nondigit s acc :
  ~ Forall (fun c => is_digit c = true) s -> parse_digits_u16 acc s = None.
Proof.
  revert acc. induction s as [|c s IH]; intros acc Hs; [exfalso; apply Hs; constructor|].
  cbn [parse_digits_u16]. unfold to_digit10.
  destruct ((48 <=? c) && (c <=? 57)) eqn:Hc; cbn [obind]; [|reflexivity].
  destruct (checked_mul_u16 acc 10); cbn [obind]; [|reflexivity].
  destruct (checked_add_u16 _ _); cbn [obind]; [|reflexivity].
  apply IH. intros Hs'. apply Hs. constructor; [exact Hc|exact Hs'].
Qed.

Lemma parse_digits_range s acc v :
  0 <= acc <= 65535 -> parse_digits_u16 acc s = Some v -> 0 <= v <= 65535.
Proof.
  revert acc. induction s as [|c s IH]; intros acc Hacc Hp; cbn [parse_digits_u16] in Hp.
  { injection Hp as <-. exact Hacc. }
  unfold to_digit10 in Hp.
  destruct (Z.leb_spec 48 c), (Z.leb_spec c 57); cbn [andb obind] in Hp; try discriminate.
  unfold checked_mul_u16, u16_max in Hp.
  destruct (Z.leb_spec (acc * 10) 65535); cbn [obind] in Hp; [|discriminate].
  unfold checked_add_u16, u16_max in Hp.
  destruct (Z.leb_spec (acc * 10 + (c - 48)) 65535); cbn [obind] in Hp; [|discriminate].
  eapply IH; [|exact Hp]. lia.
Qed.

Lemma parse_u16_cons c r :
  parse_u16 (c :: r) =
    if c =? 43 then match r with [] => None | _ => parse_digits_u16 0 r end
    else if (c =? 45) && match r with [] => true | _ => false end then None
    else parse_digits_u16 0 (c :: r).
Proof.
  destruct r; destruct c as [|p|p]; try reflexivity; repeat (destruct p; try reflexivity).
Qed.

Lemma parse_u16_digits s d :
  port_digits s d ->
  parse_u16 s = if decimal_value d <=? 65535 then Some (decimal_value d) else None.
Proof.
  intros (Hne & Hd & Hs). unfold decimal_value.
  change (fun a c => a * 10 + (c - 48)) with dstep.
  destruct d as [|c d]; [contradiction|].
  inversion Hd as [|? ? Hc _]; subst. pose proof Hc as Hc'. unfold is_digit in Hc'.
  apply andb_prop in Hc' as [H1 H2]. apply Z.leb_le in H1, H2.
  destruct Hs as [->| ->]; rewrite parse_u16_cons.
  - destruct (Z.eqb_spec c 43); [lia|]. destruct (Z.eqb_spec c 45); [lia|]. cbn [andb].
    apply parse_digits_value; [lia|exact Hd].
  - cbn [Z.eqb Pos.eqb]. apply parse_digits_value; [lia|exact Hd].
Qed.

Lemma parse_u16_other s :
  ~ (exists d, port_digits s d) -> parse_u16 s = None.
Proof.
  intros Hno. destruct s as [|c r]; [reflexivity|]. rewrite parse_u16_cons.
  destruct (Z.eqb_spec c 43) as [->|H43].
  - destruct r as [|c' r']; [reflexivity|]. apply parse_digits_nondigit. intros Hd.
    apply Hno. exists (c' :: r'). split; [discriminate|]. split; [exact Hd|now right].
  - destruct ((c =? 45) && _); [reflexivity|]. apply parse_digits_nondigit. intros Hd.
    apply Hno. exists (c :: r). split; [discriminate|]. split; [exact Hd|now left].
Qed.

(** X13: The port of both [DatabaseConfig::default] ([db.rs] and
    [config/mod.rs]): 5432 when [PGPORT] is unset; when it is a non-empty
    string of decimal digits, optionally after one '+', its value if that
    is at most 65535 (leading zeros allowed) and 5432 otherwise; 5432 for
    any other text (a '-' sign, spaces, other characters, a lone '+'). *)
Theorem default_port_spec (e : env) :
  dbconf.port (dbconf.default e) = default_port e /\
  config.port (config.default e) = default_port e /\
  (e (str "PGPORT") = None -> default_port e = 5432) /\
  (forall s d, e (str "PGPORT") = Some s -> port_digits s d ->
     default_port e = if decimal_value d <=? 65535 then decimal_value d else 5432) /\
  (forall s, e (str "PGPORT") = Some s -> ~ (exists d, port_digits s d) -> default_port e = 5432) /\
  0 <= default_port e <= 65535.
Proof.
  split; [reflexivity|]. split; [reflexivity|].
  split; [intros H; unfold default_port; now rewrite H|].
  split.
  { intros s d H Hd. unfold default_port. rewrite H. cbn [obind].
    rewrite (parse_u16_digits s d Hd). destruct (_ <=? _); reflexivity. }
  split.
  { intros s H Hno. unfold default_port. rewrite H. cbn [obind]. now rewrite parse_u16_other. }
  unfold default_port. destruct (e (str "PGPORT")) as [s|]; cbn [obind]; [|lia].
  destruct (parse_u16 s) as [v|] eqn:Hp; [|lia].
  destruct s as [|c r]; [discriminate|]. rewrite parse_u16_cons in Hp.
  destruct (c =? 43); [destruct r; [discriminate|]|destruct (_ && _); [discriminate|]];
    eapply parse_digits_range; [|exact Hp| |exact Hp]; lia.
Qed.

End PortMore.
